(** * Stencil: the substitution engine, the binary classifier and the
    generation walker, embedded from the Go sources

    - [internal/replacer/replacer.go]: [Replacer], [NewReplacer],
      [ReplaceInContent], [ReplaceInPath], [ExtractVariablesFromFile],
      [ExtractVariablesFromPath], [IsBinaryFile];
    - [internal/generator/generator.go]: [Generator], [NewGenerator],
      [Generate], [processFile], [copyFile], [truncateString];
    - [config/config.go]: [FormatOptions], [Config].

    A Go [[]byte] is a [list byte], a Go [string] is a [string] (a sequence
    of 8-bit characters), a Go [map[string]string] is a [gmap string string]
    and a Go [map[string]bool] used as a set is a [gset string]. *)

From Stdlib Require Import Strings.String Strings.Ascii Strings.Byte.
From Stdlib Require Import NArith Lia.
From Stdlib Require Import ZArith.
From stdpp Require Import gmap strings list fin_maps sorting pretty.

Local Open Scope string_scope.
Local Open Scope list_scope.

(** ** Bytes and the conversions [[]byte(s)] and [string(b)] *)

Abbreviation bytes := (list byte).

#[global] Instance byte_eq_decision : EqDecision byte := Byte.byte_eq_dec.

Definition to_bytes (s : string) : bytes := list_byte_of_string s.
Definition of_bytes (b : bytes) : string := string_of_list_byte b.

(** ** Go's [bytes.HasPrefix] and [bytes.ReplaceAll]

    [bytes.ReplaceAll s old new] returns [s] with all non-overlapping
    instances of [old] replaced by [new], found from the left.  The scan
    below copies one byte at a time; when [old] starts at the current
    position it emits [new] and skips the remaining bytes of [old]. *)

Fixpoint HasPrefix (s prefix : bytes) {struct prefix} : bool :=
  match prefix, s with
  | [], _ => true
  | _ :: _, [] => false
  | a :: prefix', b :: s' => Byte.eqb a b && HasPrefix s' prefix'
  end.

Fixpoint replace_scan (old new : bytes) (skip : nat) (s : bytes) : bytes :=
  match s with
  | [] => []
  | c :: s' =>
      match skip with
      | S k => replace_scan old new k s'
      | O =>
          if HasPrefix s old
          then new ++ replace_scan old new (length old - 1) s'
          else c :: replace_scan old new 0 s'
      end
  end.

(** For the empty [old] Go inserts [new] at the beginning and after every
    UTF-8 sequence; the replacer never builds an empty pattern (each one
    carries its delimiters).  That case is kept byte-wise, which is Go's
    result on ASCII input. *)
Definition bytes_ReplaceAll (s old new : bytes) : bytes :=
  match old with
  | [] => new ++ flat_map (fun c => c :: new) s
  | _ :: _ => replace_scan old new 0 s
  end.

(** ** Go's [strings.ReplaceAll], on strings *)

Fixpoint sreplace_scan (old new : string) (skip : nat) (s : string) : string :=
  match s with
  | EmptyString => EmptyString
  | String c s' =>
      match skip with
      | S k => sreplace_scan old new k s'
      | O =>
          if String.prefix old s
          then new +:+ sreplace_scan old new (String.length old - 1) s'
          else String c (sreplace_scan old new 0 s')
      end
  end.

Fixpoint sinterleave (new s : string) : string :=
  match s with
  | EmptyString => EmptyString
  | String c s' => String c (new +:+ sinterleave new s')
  end.

Definition strings_ReplaceAll (s old new : string) : string :=
  match old with
  | EmptyString => new +:+ sinterleave new s
  | String _ _ => sreplace_scan old new 0 s
  end.

(** ** [config.FormatOptions] *)

Record FormatOptions := {
  EnableBraces : bool;
  EnableAngleBrackets : bool;
  EnableUnderscores : bool;
  EnablePercent : bool
}.

(** ** [replacer.Replacer]

    The struct has the variables as its only field. *)

Record Replacer := { variables : gmap string string }.

Definition NewReplacer (vars : gmap string string) : Replacer :=
  {| variables := vars |}.

(** [for key, value := range r.variables] visits the entries of the map in
    an order Go leaves unspecified: any enumeration of the entries is a
    possible run of the loop. *)
Definition range_order (m : gmap string string)
    (order : list (string * string)) : Prop :=
  order ≡ₚ map_to_list m.

(** The body of the loop of [ReplaceInContent]: the four passes for one
    variable, in the order of the source. *)
Definition content_step (result : bytes) (kv : string * string) : bytes :=
  let key := kv.1 in
  let value := kv.2 in
  let pattern := to_bytes ("{{" +:+ key +:+ "}}") in
  let result := bytes_ReplaceAll result pattern (to_bytes value) in
  let pattern2 := to_bytes ("<<" +:+ key +:+ ">>") in
  let result := bytes_ReplaceAll result pattern2 (to_bytes value) in
  let pattern3 := to_bytes ("__" +:+ key +:+ "__") in
  let result := bytes_ReplaceAll result pattern3 (to_bytes value) in
  let pattern4 := to_bytes ("%" +:+ key +:+ "%") in
  bytes_ReplaceAll result pattern4 (to_bytes value).

(** [ReplaceInContent], run with the entries visited in [order]. *)
Definition ReplaceInContent (order : list (string * string))
    (content : bytes) : bytes :=
  foldl content_step content order.

Definition path_step (result : string) (kv : string * string) : string :=
  let key := kv.1 in
  let value := kv.2 in
  let result := strings_ReplaceAll result ("{{" +:+ key +:+ "}}") value in
  let result := strings_ReplaceAll result ("<<" +:+ key +:+ ">>") value in
  let result := strings_ReplaceAll result ("__" +:+ key +:+ "__") value in
  strings_ReplaceAll result ("%" +:+ key +:+ "%") value.

(** [ReplaceInPath], run with the entries visited in [order]. *)
Definition ReplaceInPath (order : list (string * string))
    (path : string) : string :=
  foldl path_step path order.

(** ** Extraction: the four regular expressions

    Each pattern has the shape [open (class+) close].  Go's [regexp] is
    leftmost-first: the match is the one a backtracking matcher finds first,
    with [+] greedy.  [plus_greedy] takes one byte of the class, tries to
    take more, and only then tries [close].  The delimiters are ASCII and
    the classes are sets of ASCII bytes or their complement, so matching a
    byte at a time agrees with matching a UTF-8 sequence at a time. *)

Fixpoint strip_prefix (lit s : bytes) : option bytes :=
  match lit, s with
  | [], _ => Some s
  | _ :: _, [] => None
  | a :: lit', b :: s' => if Byte.eqb a b then strip_prefix lit' s' else None
  end.

Fixpoint plus_greedy (cls : byte → bool) (close : bytes) (s : bytes)
    : option (bytes * bytes) :=
  match s with
  | [] => None
  | c :: s' =>
      if cls c then
        match plus_greedy cls close s' with
        | Some (g, rest) => Some (c :: g, rest)
        | None =>
            match strip_prefix close s' with
            | Some rest => Some ([c], rest)
            | None => None
            end
        end
      else None
  end.

Record pattern := {
  p_open : bytes;
  p_class : byte → bool;
  p_close : bytes
}.

(** A match of the pattern at the start of [s]: the submatch and what
    follows the match. *)
Definition match_here (p : pattern) (s : bytes) : option (bytes * bytes) :=
  match strip_prefix (p_open p) s with
  | Some s' => plus_greedy (p_class p) (p_close p) s'
  | None => None
  end.

(** [FindAllSubmatch(content, -1)], keeping [match[1]] of each match:
    successive non-overlapping matches, the search resuming where the
    previous match ended. *)
Fixpoint find_all (p : pattern) (skip : nat) (s : bytes) : list bytes :=
  match s with
  | [] => []
  | _ :: s' =>
      match skip with
      | S k => find_all p k s'
      | O =>
          match match_here p s with
          | Some (g, rest) => g :: find_all p (length s - length rest - 1) s'
          | None => find_all p 0 s'
          end
      end
  end.

Definition FindAllSubmatch (p : pattern) (content : bytes) : list bytes :=
  find_all p 0 content.

Definition byte_in (lo hi c : byte) : bool :=
  (Byte.to_N lo <=? Byte.to_N c)%N && (Byte.to_N c <=? Byte.to_N hi)%N.

(** [[A-Za-z0-9_]] *)
Definition word_class (c : byte) : bool :=
  byte_in "A"%byte "Z"%byte c || byte_in "a"%byte "z"%byte c
  || byte_in "0"%byte "9"%byte c || Byte.eqb c "_"%byte.

(** [\{\{([^}]+)\}\}] *)
Definition pattern1 : pattern :=
  {| p_open := to_bytes "{{";
     p_class := fun c => negb (Byte.eqb c "}"%byte);
     p_close := to_bytes "}}" |}.

(** [<<([^>]+)>>] *)
Definition pattern2 : pattern :=
  {| p_open := to_bytes "<<";
     p_class := fun c => negb (Byte.eqb c ">"%byte);
     p_close := to_bytes ">>" |}.

(** [__([A-Za-z0-9_]+)__] *)
Definition pattern3 : pattern :=
  {| p_open := to_bytes "__"; p_class := word_class; p_close := to_bytes "__" |}.

(** [%([A-Za-z0-9_]+)%] *)
Definition pattern4 : pattern :=
  {| p_open := to_bytes "%"; p_class := word_class; p_close := to_bytes "%" |}.

(** [for _, match := range matches { variables[string(match[1])] = true }] *)
Definition add_matches (vars : gset string) (matches : list bytes)
    : gset string :=
  foldl (fun vs m => vs ∪ {[ of_bytes m ]}) vars matches.

(** The map [variables] at the end of the four loops. *)
Definition extracted (content : bytes) : gset string :=
  let vars := ∅ in
  let vars := add_matches vars (FindAllSubmatch pattern1 content) in
  let vars := add_matches vars (FindAllSubmatch pattern2 content) in
  let vars := add_matches vars (FindAllSubmatch pattern3 content) in
  add_matches vars (FindAllSubmatch pattern4 content).

(** The returned slice lists the keys of the map, in an order Go leaves
    unspecified; [elements] is one such enumeration. *)
Definition ExtractVariablesFromFile (content : bytes) : list string :=
  elements (extracted content).

(** The same four expressions, run on the bytes of the path. *)
Definition ExtractVariablesFromPath (path : string) : list string :=
  elements (extracted (to_bytes path)).

(** ** The file system

    A path is kept cleaned, as the list of its segments below the root; the
    process runs with the root as its working directory, so a relative path
    of the configuration names the same entry.  There are no symbolic links
    (so [os.Stat] and [os.Lstat] agree), and a process that owns the files
    and is not the superuser: a file opens for reading when its owner-read
    bit is set, for writing when its owner-write bit is set.  Search
    permission on directories is not modelled. *)

Abbreviation fpath := (list string).

Inductive errno := ENOENT | ENOTDIR | EISDIR | EACCES | EOF.

Inductive entry :=
  | File (mode : N) (data : bytes)
  | Dir (mode : N).

Record filesystem := {
  tree : gmap (list string) entry;
  umask : N
}.

(** [os.FileInfo], as far as the generator reads it. *)
Record FileInfo := { IsDir : bool; Mode : N }.

Definition info_of (e : entry) : FileInfo :=
  match e with
  | File m _ => {| IsDir := false; Mode := m |}
  | Dir m => {| IsDir := true; Mode := m |}
  end.

(** The octal constants of the sources. *)
Definition perm_0755 : N := 493.
Definition perm_0644 : N := 420.

Definition node_at (t : gmap (list string) entry) (p : fpath) : option entry :=
  match p with
  | [] => Some (Dir perm_0755)
  | _ :: _ => t !! p
  end.

Fixpoint lookup_from (t : gmap (list string) entry) (cur rest : fpath)
    : errno + entry :=
  match rest with
  | [] =>
      match node_at t cur with
      | Some e => inr e
      | None => inl ENOENT
      end
  | n :: rest' =>
      match node_at t cur with
      | Some (Dir _) => lookup_from t (cur ++ [n]) rest'
      | Some (File _ _) => inl ENOTDIR
      | None => inl ENOENT
      end
  end.

Definition Lstat (fs : filesystem) (p : fpath) : errno + entry :=
  lookup_from (tree fs) [] p.

Definition Stat := Lstat.

(** [os.IsNotExist] *)
Definition IsNotExist (r : errno + entry) : bool :=
  match r with
  | inl ENOENT => true
  | _ => false
  end.


(** The mode an entry is created with: the requested bits without those of
    the process's umask. *)
Definition created_mode (fs : filesystem) (perm : N) : N :=
  N.ldiff perm (umask fs).

Definition with_tree (fs : filesystem) (t : gmap (list string) entry)
    : filesystem :=
  {| tree := t; umask := umask fs |}.

(** [os.MkdirAll(path, perm)]: a path that is a directory is left alone, a
    path that is a file is an error, and the missing directories are made
    from the top, each with [perm]. *)
Fixpoint mkdir_from (fs : filesystem) (perm : N) (cur rest : fpath)
    : errno + filesystem :=
  match rest with
  | [] => inr fs
  | n :: rest' =>
      let d := cur ++ [n] in
      match tree fs !! d with
      | Some (Dir _) => mkdir_from fs perm d rest'
      | Some (File _ _) => inl ENOTDIR
      | None =>
          mkdir_from (with_tree fs (<[d := Dir (created_mode fs perm)]> (tree fs)))
            perm d rest'
      end
  end.

Definition MkdirAll (fs : filesystem) (path : fpath) (perm : N)
    : errno + filesystem :=
  mkdir_from fs perm [] path.

Definition owner_read (m : N) : bool := N.testbit m 8.
Definition owner_write (m : N) : bool := N.testbit m 7.

(** [os.Open(path)]: the entry opened for reading. *)
Definition Open (fs : filesystem) (path : fpath) : errno + entry :=
  match Lstat fs path with
  | inl e => inl e
  | inr (File m d) => if owner_read m then inr (File m d) else inl EACCES
  | inr (Dir m) => if owner_read m then inr (Dir m) else inl EACCES
  end.

(** [file.Read(buffer)] with a buffer of [n] bytes, at the start of the
    file: the bytes read, or an error; at the end of the file the error is
    [io.EOF]. *)
Definition Read (file : entry) (n : nat) : errno + bytes :=
  match file with
  | Dir _ => inl EISDIR
  | File _ [] => inl EOF
  | File _ d => inr (take n d)
  end.

(** [io.ReadAll(file)] *)
Definition ReadAll (file : entry) : errno + bytes :=
  match file with
  | Dir _ => inl EISDIR
  | File _ d => inr d
  end.

(** [filepath.Dir] of a cleaned path. *)
Definition Dir_of (p : fpath) : fpath := removelast p.

(** [os.OpenFile(path, O_WRONLY|O_CREATE|O_TRUNC, perm)]: an existing file
    is truncated and keeps its mode, a missing one is created with [perm]. *)
Definition OpenFile_trunc (fs : filesystem) (path : fpath) (perm : N)
    : errno + filesystem :=
  match path with
  | [] => inl EISDIR
  | _ :: _ =>
      match Lstat fs (Dir_of path) with
      | inl e => inl e
      | inr (File _ _) => inl ENOTDIR
      | inr (Dir _) =>
          match tree fs !! path with
          | Some (Dir _) => inl EISDIR
          | Some (File m _) =>
              if owner_write m
              then inr (with_tree fs (<[path := File m []]> (tree fs)))
              else inl EACCES
          | None =>
              inr (with_tree fs (<[path := File (created_mode fs perm) []]> (tree fs)))
          end
      end
  end.

(** [file.Write(data)] on a file just opened by [OpenFile_trunc]. *)
Definition Write (fs : filesystem) (path : fpath) (data : bytes) : filesystem :=
  match tree fs !! path with
  | Some (File m _) => with_tree fs (<[path := File m data]> (tree fs))
  | _ => fs
  end.

(** ** [IsBinaryFile] *)

(** [for _, b := range buffer { if b == 0 { return true } }; return false] *)
Fixpoint has_null_byte (buffer : bytes) : bool :=
  match buffer with
  | [] => false
  | b :: buffer' => if Byte.eqb b Byte.x00 then true else has_null_byte buffer'
  end.

Definition IsBinaryFile (fs : filesystem) (filePath : fpath) : bool :=
  match Open fs filePath with
  | inl _ => false
  | inr file =>
      match Read file 512 with
      | inl _ => false
      | inr buffer => has_null_byte buffer
      end
  end.

(** ** Paths: [filepath.Clean], [filepath.Join], [filepath.Rel] *)

Fixpoint split_slash (s : string) : list string :=
  match s with
  | EmptyString => [EmptyString]
  | String c s' =>
      if Ascii.eqb c "/"%char then EmptyString :: split_slash s'
      else
        match split_slash s' with
        | [] => [String c EmptyString]
        | h :: t => String c h :: t
        end
  end.

(** One segment of [filepath.Clean], on the segments kept so far (last
    first): empty segments and [.] are dropped, [..] removes the segment
    before it and is dropped at the root. *)
Definition clean_step (kept : list string) (seg : string) : list string :=
  if String.eqb seg "" || String.eqb seg "." then kept
  else if String.eqb seg ".." then tail kept
  else seg :: kept.

Definition Clean_from (base : fpath) (segs : list string) : fpath :=
  rev (foldl clean_step (rev base) segs).

(** The cleaned path a string of the configuration names. *)
Definition path_of (s : string) : fpath := Clean_from [] (split_slash s).

(** [filepath.Join(base, elem)] *)
Definition Join (base : fpath) (elem : string) : fpath :=
  Clean_from base (split_slash elem).

Fixpoint rel_segments (base targ : fpath) : list string :=
  match base, targ with
  | b :: base', t :: targ' =>
      if String.eqb b t then rel_segments base' targ'
      else ((fun _ => "..") <$> base) ++ targ
  | _, _ => ((fun _ => "..") <$> base) ++ targ
  end.

(** [filepath.Rel(base, targ)] of two cleaned paths below the same root;
    it has no error there. *)
Definition Rel (base targ : fpath) : string :=
  match rel_segments base targ with
  | [] => "."
  | segs => String.concat "/" segs
  end.

(** The names in a directory, sorted as [filepath.Walk] reads them. *)
Fixpoint below (d p : fpath) : option fpath :=
  match d, p with
  | [], _ => Some p
  | _ :: _, [] => None
  | a :: d', b :: p' => if String.eqb a b then below d' p' else None
  end.

Definition child_name (d p : fpath) : option string :=
  match below d p with
  | Some [n] => Some n
  | _ => None
  end.

Definition readDirNames (fs : filesystem) (d : fpath) : list string :=
  merge_sort String.le (omap (fun kv => child_name d kv.1) (map_to_list (tree fs))).

(** ** [config.Config] and [generator.Generator] *)

Record Config := {
  TemplateDir : string;
  OutputDir : string;
  Variables : gmap string string;
  Interactive : bool;
  DryRun : bool;
  SkipConfirm : bool;
  Formats : FormatOptions
}.

Record Generator := {
  cfg : Config;
  replacer : Replacer
}.

(** The source calls [replacer.NewReplacer(cfg.Variables, cfg.Formats)];
    the replacer of [replacer.go] takes and keeps the variables only. *)
Definition NewGenerator (c : Config) : Generator :=
  {| cfg := c; replacer := NewReplacer (Variables c) |}.

(** [truncateString] *)
Definition truncateString (s : string) (maxLen : nat) : string :=
  if Nat.leb (String.length s) maxLen then s
  else String.substring 0 maxLen s +:+ "...".

(** The lines a dry run prints. *)
Inductive report :=
  | WouldCreateDirectory (targetPath : fpath)
  | WouldCopyBinary (sourcePath targetPath : fpath)
  | WouldCreateFile (targetPath : fpath)
  | ContentPreview (preview : string).

(** The errors [Generate] returns. *)
Inductive error :=
  | TemplateMissing (dir : string)
  | OutputDirFailed (e : errno)
  | OpenSourceFailed (e : errno)
  | ReadContentFailed (e : errno)
  | CreateTargetFailed (e : errno)
  | Sys (e : errno).

(** The state a run goes through: the file system, what was printed, and
    the number of loops over the variables run so far; [pick n] is the order
    in which the [n]-th of them visits the variables. *)
Record world := {
  fsys : filesystem;
  stdout : list report;
  calls : nat
}.

Definition set_fsys (w : world) (fs : filesystem) : world :=
  {| fsys := fs; stdout := stdout w; calls := calls w |}.

Definition print (w : world) (r : report) : world :=
  {| fsys := fsys w; stdout := stdout w ++ [r]; calls := calls w |}.

Definition next_call (w : world) : world :=
  {| fsys := fsys w; stdout := stdout w; calls := S (calls w) |}.

Abbreviation orders := (nat → list (string * string)).

(** [copyFile] *)
Definition copyFile (source destination : fpath) (w : world)
    : world * option error :=
  match Open (fsys w) source with
  | inl e => (w, Some (Sys e))
  | inr src =>
      match OpenFile_trunc (fsys w) destination perm_0644 with
      | inl e => (w, Some (Sys e))
      | inr fs' =>
          (* [io.Copy(dst, src)] reads the source as it is once the
             destination has been opened *)
          match Lstat fs' source with
          | inl e => (set_fsys w fs', Some (Sys e))
          | inr now =>
              match ReadAll now with
              | inl e => (set_fsys w fs', Some (Sys e))
              | inr data => (set_fsys w (Write fs' destination data), None)
              end
          end
      end
  end.

(** [processFile] *)
Definition processFile (g : Generator) (pick : orders)
    (sourcePath targetPath : fpath) (info : FileInfo) (w : world)
    : world * option error :=
  match Open (fsys w) sourcePath with
  | inl e => (w, Some (OpenSourceFailed e))
  | inr sourceFile =>
      let isBinary := IsBinaryFile (fsys w) sourcePath in
      if isBinary then
        if DryRun (cfg g) then
          (print w (WouldCopyBinary sourcePath targetPath), None)
        else
          match MkdirAll (fsys w) (Dir_of targetPath) perm_0755 with
          | inl e => (w, Some (Sys e))
          | inr fs' => copyFile sourcePath targetPath (set_fsys w fs')
          end
      else
        match ReadAll sourceFile with
        | inl e => (w, Some (ReadContentFailed e))
        | inr content =>
            let newContent := ReplaceInContent (pick (calls w)) content in
            let w := next_call w in
            if DryRun (cfg g) then
              let w := print w (WouldCreateFile targetPath) in
              (print w (ContentPreview (truncateString (of_bytes newContent) 200)),
               None)
            else
              match MkdirAll (fsys w) (Dir_of targetPath) perm_0755 with
              | inl e => (w, Some (Sys e))
              | inr fs' =>
                  match OpenFile_trunc fs' targetPath (Mode info) with
                  | inl e => (set_fsys w fs', Some (CreateTargetFailed e))
                  | inr fs'' =>
                      (set_fsys w (Write fs'' targetPath newContent), None)
                  end
              end
        end
  end.

(** ** [filepath.Walk]

    The walk reads the names of a directory before it calls the function on
    it, and the function changes the file system the walk goes on to read:
    the state is threaded through.  [fuel] bounds the depth of the descent. *)

Definition WalkFunc : Type :=
  fpath → option FileInfo → option errno → world → world * option error.

Definition readDir (fs : filesystem) (path : fpath) (info : FileInfo)
    : errno + list string :=
  if owner_read (Mode info) then inr (readDirNames fs path) else inl EACCES.

Fixpoint walk (fuel : nat) (walkFn : WalkFunc) (path : fpath)
    (info : FileInfo) (w : world) : option (world * option error) :=
  match fuel with
  | O => None
  | S fuel' =>
      if negb (IsDir info) then Some (walkFn path (Some info) None w)
      else
        match readDir (fsys w) path info with
        | inl e => Some (walkFn path (Some info) (Some e) w)
        | inr names =>
            match walkFn path (Some info) None w with
            | (w1, Some err1) => Some (w1, Some err1)
            | (w1, None) =>
                (fix each (names : list string) (w : world) :=
                   match names with
                   | [] => Some (w, None)
                   | name :: names' =>
                       let filename := path ++ [name] in
                       match Lstat (fsys w) filename with
                       | inl e =>
                           match walkFn filename None (Some e) w with
                           | (w', Some err) => Some (w', Some err)
                           | (w', None) => each names' w'
                           end
                       | inr ent =>
                           match walk fuel' walkFn filename (info_of ent) w with
                           | None => None
                           | Some (w', Some err) => Some (w', Some err)
                           | Some (w', None) => each names' w'
                           end
                       end
                   end) names w1
            end
        end
  end.

Definition Walk (fuel : nat) (walkFn : WalkFunc) (root : fpath) (w : world)
    : option (world * option error) :=
  match Lstat (fsys w) root with
  | inl e => Some (walkFn root None (Some e) w)
  | inr ent => walk fuel walkFn root (info_of ent) w
  end.

(** ** [Generate] *)

(** The function [Generate] hands to [filepath.Walk]. *)
Definition generate_entry (g : Generator) (pick : orders) : WalkFunc :=
  fun path info err w =>
    match err, info with
    | Some e, _ => (w, Some (Sys e))
    | None, None => (w, None)
    | None, Some info =>
        let relPath := Rel (path_of (TemplateDir (cfg g))) path in
        if String.eqb relPath "." then (w, None)
        else
          let replaced := ReplaceInPath (pick (calls w)) relPath in
          let w := next_call w in
          let targetPath := Join (path_of (OutputDir (cfg g))) replaced in
          if IsDir info then
            if DryRun (cfg g) then
              (print w (WouldCreateDirectory targetPath), None)
            else
              match MkdirAll (fsys w) targetPath (Mode info) with
              | inl e => (w, Some (Sys e))
              | inr fs' => (set_fsys w fs', None)
              end
          else processFile g pick path targetPath info w
    end.

Definition Generate (g : Generator) (pick : orders) (fuel : nat) (w : world)
    : option (world * option error) :=
  if IsNotExist (Stat (fsys w) (path_of (TemplateDir (cfg g)))) then
    Some (w, Some (TemplateMissing (TemplateDir (cfg g))))
  else
    match MkdirAll (fsys w) (path_of (OutputDir (cfg g))) perm_0755 with
    | inl e => Some (w, Some (OutputDirFailed e))
    | inr fs' => Walk fuel (generate_entry g pick) (path_of (TemplateDir (cfg g)))
                   (set_fsys w fs')
    end.

(** ** Notions the properties are stated with *)

(** [bytes.Contains]: [sub] occurs somewhere in [s]. *)
Fixpoint Contains (s sub : bytes) : bool :=
  HasPrefix s sub ||
  match s with
  | [] => false
  | _ :: s' => Contains s' sub
  end.

(** The four placeholders of a name, in the order the loop body uses
    them. *)
Definition placeholders (key : string) : list bytes :=
  [ to_bytes ("{{" +:+ key +:+ "}}");
    to_bytes ("<<" +:+ key +:+ ">>");
    to_bytes ("__" +:+ key +:+ "__");
    to_bytes ("%" +:+ key +:+ "%") ].

(** The replacement passes of one variable, and of a whole run: pairs of
    the pattern and what replaces it. *)
Definition passes_of (kv : string * string) : list (bytes * bytes) :=
  (fun p => (p, to_bytes kv.2)) <$> placeholders kv.1.

Definition passes (order : list (string * string)) : list (bytes * bytes) :=
  order ≫= passes_of.

Definition run_passes (ps : list (bytes * bytes)) (content : bytes) : bytes :=
  foldl (fun result pv => bytes_ReplaceAll result pv.1 pv.2) content ps.

(** No placeholder of a key of the set is left in the buffer. *)
Definition fully_substituted (vars : gmap string string) (content : bytes)
    : Prop :=
  ∀ key, is_Some (vars !! key) →
    ∀ p, p ∈ placeholders key → Contains content p = false.

(** Simultaneous substitution, the reading of a template the passes are
    meant to implement: from the left, where a placeholder of the set
    starts it is replaced by its value and the scan resumes after it; any
    other byte is copied. *)
Fixpoint simultaneous_scan (ps : list (bytes * bytes)) (skip : nat)
    (s : bytes) : bytes :=
  match s with
  | [] => []
  | c :: s' =>
      match skip with
      | S k => simultaneous_scan ps k s'
      | O =>
          match find (fun pv => HasPrefix s pv.1) ps with
          | Some pv => pv.2 ++ simultaneous_scan ps (length pv.1 - 1) s'
          | None => c :: simultaneous_scan ps 0 s'
          end
      end
  end.

Definition simultaneous (ps : list (bytes * bytes)) (s : bytes) : bytes :=
  simultaneous_scan ps 0 s.

(** No pattern starts at any of the first [k] positions of [s]. *)
Fixpoint none_starts (pats : list bytes) (k : nat) (s : bytes) : bool :=
  match k with
  | O => true
  | S k' =>
      forallb (fun q => negb (HasPrefix s q)) pats &&
      match s with
      | [] => true
      | _ :: s' => none_starts pats k' s'
      end
  end.

(** Where a pattern starts at the head of [s], no other pattern starts
    there and none starts inside the occurrence. *)
Definition apart_here (pats : list bytes) (s : bytes) : bool :=
  forallb (fun p =>
    negb (HasPrefix s p) ||
    (forallb (fun q => negb (HasPrefix s q) || bool_decide (q = p)) pats &&
     none_starts pats (length p - 1) (tail s))) pats.

(** The occurrences of the patterns in [s] do not overlap. *)
Fixpoint separated (pats : list bytes) (s : bytes) : bool :=
  match s with
  | [] => true
  | _ :: s' => apart_here pats s && separated pats s'
  end.

(** A value that cannot take part in an occurrence of a pattern: it is not
    empty, its first byte is in no pattern, and no first byte of a pattern
    is in it. *)
Definition inert_value (pats : list bytes) (v : bytes) : bool :=
  match v with
  | [] => false
  | c :: _ =>
      forallb (fun q =>
        negb (bool_decide (c ∈ q)) &&
        match q with
        | [] => false
        | d :: _ => negb (bool_decide (d ∈ v))
        end) pats
  end.

Definition inert (ps : list (bytes * bytes)) : bool :=
  forallb (inert_value ps.*1) ps.*2.


(** ** Sample inputs: the template of the end-to-end scenarios

    [template/README.md] holds [Hello {{name}}!], [template/__name__.txt]
    holds [v%version%] with mode 0600, and [template/sub/tool] is an
    executable (mode 0755) with a zero byte, in a directory of mode 0700.
    Nothing exists at [output], and the umask is 0. *)

Definition sample_tree : gmap (list string) entry :=
  <[ ["template"] := Dir 493 ]> (
  <[ ["template"; "README.md"] := File 420 (to_bytes "Hello {{name}}!") ]> (
  <[ ["template"; "__name__.txt"] := File 384 (to_bytes "v%version%") ]> (
  <[ ["template"; "sub"] := Dir 448 ]> (
  <[ ["template"; "sub"; "tool"] :=
       File 493 (to_bytes "ELF" ++ [Byte.x00] ++ to_bytes "{{name}}") ]> ∅)))).

Definition sample_world : world :=
  {| fsys := {| tree := sample_tree; umask := 0 |}; stdout := []; calls := 0 |}.

Definition sample_variables : gmap string string :=
  <[ "name" := "World" ]> (<[ "version" := "1.0" ]> ∅).

Definition all_formats : FormatOptions :=
  {| EnableBraces := true; EnableAngleBrackets := true;
     EnableUnderscores := true; EnablePercent := true |}.

Definition without_percent : FormatOptions :=
  {| EnableBraces := true; EnableAngleBrackets := true;
     EnableUnderscores := true; EnablePercent := false |}.

Definition sample_config (formats : FormatOptions) (dryRun : bool) : Config :=
  {| TemplateDir := "./template"; OutputDir := "./output";
     Variables := sample_variables; Interactive := false;
     DryRun := dryRun; SkipConfirm := false; Formats := formats |}.

Definition sample_orders : orders := fun _ => map_to_list sample_variables.

(** A world in which [template] is a regular file. *)
Definition file_root_world : world :=
  {| fsys := {| tree := {[ ["template"] := File 420 (to_bytes "{{name}}") ]};
                umask := 0 |};
     stdout := []; calls := 0 |}.

(** A world with nothing in it. *)
Definition empty_world : world :=
  {| fsys := {| tree := ∅; umask := 0 |}; stdout := []; calls := 0 |}.



(** What is there stays: a directory of [fs] is the same directory in
    [fs'], and a file of [fs] is a file of [fs'] with the same mode. *)
Definition keeps_entries (fs fs' : filesystem) : Prop :=
  ∀ p, match tree fs !! p with
       | Some (Dir m) => tree fs' !! p = Some (Dir m)
       | Some (File m _) => ∃ data', tree fs' !! p = Some (File m data')
       | None => True
       end.

(** ** [Generator.ExtractVariables]

    The same [filepath.Walk], over any state that holds the file system
    the walk reads: [ExtractVariables] threads the map of the names found
    so far. *)

Fixpoint walk_in {S : Type} (fs_of : S → filesystem) (fuel : nat)
    (walkFn : fpath → option FileInfo → option errno → S → S * option error)
    (path : fpath) (info : FileInfo) (s : S) : option (S * option error) :=
  match fuel with
  | O => None
  | S fuel' =>
      if negb (IsDir info) then Some (walkFn path (Some info) None s)
      else
        match readDir (fs_of s) path info with
        | inl e => Some (walkFn path (Some info) (Some e) s)
        | inr names =>
            match walkFn path (Some info) None s with
            | (s1, Some err1) => Some (s1, Some err1)
            | (s1, None) =>
                (fix each (names : list string) (s : S) :=
                   match names with
                   | [] => Some (s, None)
                   | name :: names' =>
                       let filename := path ++ [name] in
                       match Lstat (fs_of s) filename with
                       | inl e =>
                           match walkFn filename None (Some e) s with
                           | (s', Some err) => Some (s', Some err)
                           | (s', None) => each names' s'
                           end
                       | inr ent =>
                           match walk_in fs_of fuel' walkFn filename (info_of ent) s with
                           | None => None
                           | Some (s', Some err) => Some (s', Some err)
                           | Some (s', None) => each names' s'
                           end
                       end
                   end) names s1
            end
        end
  end.






(** [SetVariables] *)
Definition SetVariables (g : Generator) (vars : gmap string string) : Generator :=
  {| cfg := {| TemplateDir := TemplateDir (cfg g); OutputDir := OutputDir (cfg g);
               Variables := vars; Interactive := Interactive (cfg g);
               DryRun := DryRun (cfg g); SkipConfirm := SkipConfirm (cfg g);
               Formats := Formats (cfg g) |};
     replacer := NewReplacer vars |}.

(** ** [interactive.Prompter]

    The prompter reads lines from the standard input through a
    [bufio.Reader] and prints to the standard output.  The state is what
    is left of the input and the texts printed, one per call of a print
    function.  [strings.TrimSpace], [strings.ToLower] and [strconv.Atoi]
    are functions of Go's library, taken as they come: the functions below
    are defined for any three such functions ([Atoi] gives no number where
    Go's gives an error). *)

Record console := {
  stdin : string;
  shown : list string
}.

Definition show (con : console) (text : string) : console :=
  {| stdin := stdin con; shown := shown con ++ [text] |}.

Definition newline : ascii := ascii_of_nat 10.
Definition nl : string := String newline EmptyString.

(** The first line of the input with its newline, and what follows it. *)
Fixpoint cut_line (s : string) : option (string * string) :=
  match s with
  | EmptyString => None
  | String c s' =>
      if Ascii.eqb c newline then Some (String c EmptyString, s')
      else
        match cut_line s' with
        | Some (line, rest) => Some (String c line, rest)
        | None => None
        end
  end.

(** [p.reader.ReadString('\n')]: the line up to and with the newline; when
    the input ends before a newline the call has an error ([io.EOF]) and
    the input is used up.  The callers drop what was read with the
    error. *)
Definition ReadString (con : console) : option string * console :=
  match cut_line (stdin con) with
  | Some (line, rest) => (Some line, {| stdin := rest; shown := shown con |})
  | None => (None, {| stdin := EmptyString; shown := shown con |})
  end.

(** The errors of the prompter. *)
Inductive prompt_error :=
  | ReadInputFailed
  | InvalidInput (input : string)
  | ChoiceOutOfRange (choice : Z).

(** An [int] after an addition: 64 bits, two's complement. *)
Definition wrap_int (z : Z) : Z :=
  ((z + 2 ^ 63) mod 2 ^ 64 - 2 ^ 63)%Z.

Section prompter.
Variable TrimSpace : string → string.
Variable ToLower : string → string.
Variable Atoi : string → option Z.

(** The loop of [PromptForValues], over the keys still to ask, with the
    number [i] of those asked and the total [n]. *)
Fixpoint prompt_values (variables : gmap string string) (n : nat) (i : nat)
    (varKeys : list string) (result : gmap string string) (con : console)
    : (prompt_error + gmap string string) * console :=
  match varKeys with
  | [] => (inr result, con)
  | key :: varKeys' =>
      let defaultValue := default EmptyString (variables !! key) in
      let prompt := "[" +:+ pretty (i + 1) +:+ "/" +:+ pretty n +:+ "] " +:+ key in
      let prompt :=
        if negb (String.eqb defaultValue "")
        then prompt +:+ " (default: " +:+ defaultValue +:+ ")"
        else prompt in
      let prompt := prompt +:+ ": " in
      let con := show con prompt in
      match ReadString con with
      | (None, con) => (inl ReadInputFailed, con)
      | (Some input, con) =>
          let input := TrimSpace input in
          let input :=
            if String.eqb input "" && negb (String.eqb defaultValue "")
            then defaultValue else input in
          prompt_values variables n (S i) varKeys' (<[key := input]> result) con
      end
  end.

(** [PromptForValues]; [order] is the order in which the loop that fills
    [varKeys] visits the map. *)
Definition PromptForValues (order : list (string * string))
    (variables : gmap string string) (con : console)
    : (prompt_error + gmap string string) * console :=
  let con := show con (nl +:+ "=== Interactive Variable Prompt ===" +:+ nl) in
  let con := show con ("Please provide values for the following variables:" +:+ nl) in
  let con := show con nl in
  let varKeys := order.*1 in
  prompt_values variables (length varKeys) 0 varKeys ∅ con.

(** [PromptForConfirmation] *)
Definition PromptForConfirmation (message : string) (con : console)
    : (prompt_error + bool) * console :=
  let con := show con (nl +:+ message +:+ " [y/N]: ") in
  match ReadString con with
  | (None, con) => (inl ReadInputFailed, con)
  | (Some input, con) =>
      let input := TrimSpace (ToLower input) in
      (inr (String.eqb input "y" || String.eqb input "yes"), con)
  end.

(** The lines of the choices, numbered from [i + 1]. *)
Fixpoint show_choices (defaultIndex : Z) (i : nat) (choices : list string)
    (con : console) : console :=
  match choices with
  | [] => con
  | choice :: choices' =>
      let prefix := if (Z.of_nat i =? defaultIndex)%Z then "*" else " " in
      let con := show con ("  " +:+ prefix +:+ " [" +:+ pretty (i + 1) +:+ "] "
                           +:+ choice +:+ nl) in
      show_choices defaultIndex (S i) choices' con
  end.

(** [PromptForChoice]; the index returned with an error is [-1]. *)
Definition PromptForChoice (message : string) (choices : list string)
    (defaultIndex : Z) (con : console) : (prompt_error + Z) * console :=
  let con := show con (nl +:+ message +:+ nl) in
  let con := show_choices defaultIndex 0 choices con in
  let con := show con (nl +:+ "Select choice [1-" +:+ pretty (length choices) +:+ "]") in
  let con :=
    if (0 <=? defaultIndex)%Z
    then show con (" (default: " +:+ pretty (wrap_int (defaultIndex + 1)) +:+ ")")
    else con in
  let con := show con ": " in
  match ReadString con with
  | (None, con) => (inl ReadInputFailed, con)
  | (Some input, con) =>
      let input := TrimSpace input in
      if String.eqb input "" && (0 <=? defaultIndex)%Z then (inr defaultIndex, con)
      else
        match Atoi input with
        | None => (inl (InvalidInput input), con)
        | Some choice =>
            if (choice <? 1)%Z || (Z.of_nat (length choices) <? choice)%Z
            then (inl (ChoiceOutOfRange choice), con)
            else (inr (choice - 1)%Z, con)
        end
  end.

(** [PromptForString] *)
Definition PromptForString (message defaultValue : string) (con : console)
    : (prompt_error + string) * console :=
  let prompt := message in
  let prompt :=
    if negb (String.eqb defaultValue "")
    then prompt +:+ " (default: " +:+ defaultValue +:+ ")"
    else prompt in
  let prompt := prompt +:+ ": " in
  let con := show con prompt in
  match ReadString con with
  | (None, con) => (inl ReadInputFailed, con)
  | (Some input, con) =>
      let input := TrimSpace input in
      let input := if String.eqb input "" then defaultValue else input in
      (inr input, con)
  end.

End prompter.

(** A trimming function for the samples: it removes the spaces, tabs,
    carriage returns and newlines at both ends, as [strings.TrimSpace] does
    on such input. *)
Definition is_blank (c : ascii) : bool :=
  Ascii.eqb c " "%char || Ascii.eqb c newline
  || Ascii.eqb c (ascii_of_nat 9) || Ascii.eqb c (ascii_of_nat 13).

Fixpoint trim_left (s : string) : string :=
  match s with
  | EmptyString => EmptyString
  | String c s' => if is_blank c then trim_left s' else s
  end.

Definition sample_trim (s : string) : string :=
  String.rev (trim_left (String.rev (trim_left s))).

(** The number of newlines in the input. *)
Fixpoint count_lines (s : string) : nat :=
  match s with
  | EmptyString => 0
  | String c s' => (if Ascii.eqb c newline then 1 else 0) + count_lines s'
  end.

(** ** [config.DefaultConfig] and the overrides of [loadConfig]

    [loadConfig] of [cmd/stencil/main.go] first takes the configuration of
    the file it was given or has found, or [DefaultConfig()]; what it does
    next with the flags of the command line is [apply_flags], on that
    configuration. *)

Definition DefaultConfig : Config :=
  {| TemplateDir := "./template"; OutputDir := "./output";
     Variables := ∅; Interactive := false; DryRun := false;
     SkipConfirm := false;
     Formats := {| EnableBraces := true; EnableAngleBrackets := true;
                   EnableUnderscores := true; EnablePercent := true |} |}.

(** The variables the flags are parsed into. *)
Record flags := {
  templateDir : string;
  outputDir : string;
  variables_flag : string;
  interactiveMode : bool;
  dryRun : bool;
  skipConfirm : bool
}.

(** The flags of a command line that gives none: the defaults of
    [init]. *)
Definition default_flags : flags :=
  {| templateDir := "./template"; outputDir := "./output";
     variables_flag := ""; interactiveMode := false; dryRun := false;
     skipConfirm := false |}.

(** [strings.Split(s, sep)] for a separator of one character. *)
Fixpoint Split (sep : ascii) (s : string) : list string :=
  match s with
  | EmptyString => [EmptyString]
  | String c s' =>
      if Ascii.eqb c sep then EmptyString :: Split sep s'
      else
        match Split sep s' with
        | [] => [String c EmptyString]
        | h :: t => String c h :: t
        end
  end.

(** [strings.SplitN(s, sep, 2)] for a separator of one character, when it
    gives two parts: what is before the first separator and what is after
    it. *)
Fixpoint cut_at (sep : ascii) (s : string) : option (string * string) :=
  match s with
  | EmptyString => None
  | String c s' =>
      if Ascii.eqb c sep then Some (EmptyString, s')
      else
        match cut_at sep s' with
        | Some (before, after) => Some (String c before, after)
        | None => None
        end
  end.

Section command_line.
Variable TrimSpace : string → string.

(** The body of the loop over the parts of the [-v] flag. *)
Definition assign (vars : gmap string string) (v : string)
    : gmap string string :=
  match cut_at "="%char v with
  | Some (key, value) => <[TrimSpace key := TrimSpace value]> vars
  | None => vars
  end.

Definition apply_flags (c : Config) (f : flags) : Config :=
  let tdir := if negb (String.eqb (templateDir f) "") then templateDir f
              else TemplateDir c in
  let odir := if negb (String.eqb (outputDir f) "") then outputDir f
              else OutputDir c in
  let inter := if interactiveMode f then true else Interactive c in
  let dry := if dryRun f then true else DryRun c in
  let skip := if skipConfirm f then true else SkipConfirm c in
  let vars :=
    if negb (String.eqb (variables_flag f) "")
    then foldl assign (Variables c) (Split ","%char (variables_flag f))
    else Variables c in
  {| TemplateDir := tdir; OutputDir := odir; Variables := vars;
     Interactive := inter; DryRun := dry; SkipConfirm := skip;
     Formats := Formats c |}.

End command_line.

(** * Properties *)

(** ** Prefixes and the scan of [bytes.ReplaceAll] *)

Lemma byte_eqb_eq (a b : byte) : Byte.eqb a b = true ↔ a = b.
Proof. split; [apply Byte.byte_dec_bl | apply Byte.byte_dec_lb]. Qed.

Lemma byte_eqb_refl (a : byte) : Byte.eqb a a = true.
Proof. by apply byte_eqb_eq. Qed.

Lemma HasPrefix_true (s p : bytes) : HasPrefix s p = true ↔ ∃ r, s = p ++ r.
Proof.
  revert s. induction p as [|a p IH]; intros s; simpl.
  - split; eauto.
  - destruct s as [|b s].
    + split; [done | intros [r Hr]; discriminate].
    + rewrite andb_true_iff, byte_eqb_eq, IH. split.
      * intros [-> [r ->]]. by exists r.
      * intros [r Hr]. injection Hr as -> ->. eauto.
Qed.

Lemma HasPrefix_app (p t : bytes) : HasPrefix (p ++ t) p = true.
Proof. apply HasPrefix_true. eauto. Qed.

Lemma HasPrefix_false (s p : bytes) :
  HasPrefix s p = false ↔ ¬ ∃ r, s = p ++ r.
Proof. rewrite <- HasPrefix_true. by destruct (HasPrefix s p). Qed.

Lemma HasPrefix_nil_r (p : bytes) : p ≠ [] → HasPrefix [] p = false.
Proof. by destruct p. Qed.

Lemma replace_scan_skip (old new : bytes) (k : nat) (s : bytes) :
  replace_scan old new k s = replace_scan old new 0 (drop k s).
Proof.
  revert k. induction s as [|c s IH]; intros [|k]; simpl; done.
Qed.

Lemma ReplaceAll_scan (s old new : bytes) :
  old ≠ [] → bytes_ReplaceAll s old new = replace_scan old new 0 s.
Proof. by destruct old. Qed.

Lemma ReplaceAll_nil (old new : bytes) :
  old ≠ [] → bytes_ReplaceAll [] old new = [].
Proof. by destruct old. Qed.

Lemma ReplaceAll_match (old new t : bytes) :
  old ≠ [] →
  bytes_ReplaceAll (old ++ t) old new = new ++ bytes_ReplaceAll t old new.
Proof.
  intros Hne. rewrite !ReplaceAll_scan by done.
  destruct old as [|c old]; [done|]. simpl.
  rewrite byte_eqb_refl, HasPrefix_app. simpl.
  rewrite replace_scan_skip, Nat.sub_0_r. by rewrite drop_app_length.
Qed.

Lemma ReplaceAll_copy (old new : bytes) (c : byte) (t : bytes) :
  old ≠ [] → HasPrefix (c :: t) old = false →
  bytes_ReplaceAll (c :: t) old new = c :: bytes_ReplaceAll t old new.
Proof.
  intros Hne Hp. rewrite !ReplaceAll_scan by done.
  cbn [replace_scan]. by rewrite Hp.
Qed.

Lemma Contains_cons (c : byte) (s sub : bytes) :
  Contains (c :: s) sub = false →
  HasPrefix (c :: s) sub = false ∧ Contains s sub = false.
Proof. cbn [Contains]. by intros [??]%orb_false_iff. Qed.

Lemma ReplaceAll_absent (s old new : bytes) :
  old ≠ [] → Contains s old = false → bytes_ReplaceAll s old new = s.
Proof.
  intros Hne. induction s as [|c s IH]; intros Hc.
  - by apply ReplaceAll_nil.
  - apply Contains_cons in Hc as [Hp Hc].
    rewrite ReplaceAll_copy by done. by rewrite IH.
Qed.

(** ** Conversions between strings and bytes *)

Lemma to_bytes_cons (c : ascii) (s : string) :
  to_bytes (String c s) = byte_of_ascii c :: to_bytes s.
Proof. reflexivity. Qed.

Lemma to_bytes_app (a b : string) :
  to_bytes (a +:+ b) = to_bytes a ++ to_bytes b.
Proof.
  induction a as [|c a IH]; [done|].
  change (String c a +:+ b) with (String c (a +:+ b)).
  rewrite !to_bytes_cons, IH. done.
Qed.

Lemma of_to_bytes (s : string) : of_bytes (to_bytes s) = s.
Proof. apply string_of_list_byte_of_string. Qed.

Lemma to_of_bytes (b : bytes) : to_bytes (of_bytes b) = b.
Proof. apply list_byte_of_string_of_list_byte. Qed.

Lemma to_bytes_inj (a b : string) : to_bytes a = to_bytes b → a = b.
Proof. intros H. by rewrite <- (of_to_bytes a), H, of_to_bytes. Qed.

Lemma placeholders_nonempty (key : string) (p : bytes) :
  p ∈ placeholders key → p ≠ [].
Proof.
  unfold placeholders. rewrite !elem_of_cons, elem_of_nil.
  intros [->|[->|[->|[->|[]]]]]; rewrite to_bytes_app; discriminate.
Qed.

Lemma range_order_canonical (vars : gmap string string) :
  range_order vars (map_to_list vars).
Proof. unfold range_order. reflexivity. Qed.

Lemma range_order_lookup (vars : gmap string string) order key value :
  range_order vars order → (key, value) ∈ order → vars !! key = Some value.
Proof.
  unfold range_order. intros Hp Hin. rewrite Hp in Hin.
  by apply elem_of_map_to_list in Hin.
Qed.

Lemma content_step_absent (content : bytes) (kv : string * string) :
  (∀ p, p ∈ placeholders kv.1 → Contains content p = false) →
  content_step content kv = content.
Proof.
  intros Habs. unfold content_step.
  assert (Hall : ∀ p, p ∈ placeholders kv.1 →
            bytes_ReplaceAll content p (to_bytes kv.2) = content).
  { intros p Hp. apply ReplaceAll_absent; [by eapply placeholders_nonempty|].
    by apply Habs. }
  cbn zeta.
  rewrite (Hall (to_bytes ("{{" +:+ kv.1 +:+ "}}"))) by (unfold placeholders; set_solver).
  rewrite (Hall (to_bytes ("<<" +:+ kv.1 +:+ ">>"))) by (unfold placeholders; set_solver).
  rewrite (Hall (to_bytes ("__" +:+ kv.1 +:+ "__"))) by (unfold placeholders; set_solver).
  apply Hall. unfold placeholders; set_solver.
Qed.

Lemma ReplaceInContent_absent (order : list (string * string)) (content : bytes) :
  (∀ kv, kv ∈ order → ∀ p, p ∈ placeholders kv.1 → Contains content p = false) →
  ReplaceInContent order content = content.
Proof.
  unfold ReplaceInContent. induction order as [|kv order IH]; intros Habs; [done|].
  cbn [foldl]. rewrite content_step_absent by (apply Habs; set_solver).
  apply IH. intros kv' Hin. apply Habs. set_solver.
Qed.



(** ** Paths are rewritten as contents are *)

Lemma byte_of_ascii_inj (a b : ascii) : byte_of_ascii a = byte_of_ascii b → a = b.
Proof.
  intros H. by rewrite <- (ascii_of_byte_of_ascii a), H, ascii_of_byte_of_ascii.
Qed.

Lemma to_bytes_length (s : string) : length (to_bytes s) = String.length s.
Proof. induction s as [|c s IH]; [done|]. rewrite to_bytes_cons. simpl. by rewrite IH. Qed.

Lemma prefix_HasPrefix (old s : string) :
  String.prefix old s = HasPrefix (to_bytes s) (to_bytes old).
Proof.
  revert s. induction old as [|a old IH]; intros s.
  - by destruct s.
  - destruct s as [|b s]; [done|].
    rewrite !to_bytes_cons. cbn [String.prefix HasPrefix].
    destruct (ascii_dec a b) as [->|Hne].
    + by rewrite byte_eqb_refl, IH.
    + destruct (Byte.eqb (byte_of_ascii a) (byte_of_ascii b)) eqn:E; [|done].
      apply byte_eqb_eq, byte_of_ascii_inj in E. done.
Qed.

Lemma sreplace_scan_bytes (old new : string) (k : nat) (s : string) :
  to_bytes (sreplace_scan old new k s)
  = replace_scan (to_bytes old) (to_bytes new) k (to_bytes s).
Proof.
  revert k. induction s as [|c s IH]; intros k; [done|].
  rewrite to_bytes_cons. cbn [sreplace_scan replace_scan].
  destruct k as [|k]; [|apply IH].
  rewrite <- to_bytes_cons, <- prefix_HasPrefix.
  destruct (String.prefix old (String c s)).
  - by rewrite to_bytes_app, IH, to_bytes_length.
  - by rewrite to_bytes_cons, IH.
Qed.

Lemma sinterleave_bytes (new s : string) :
  to_bytes (sinterleave new s)
  = flat_map (fun c => c :: to_bytes new) (to_bytes s).
Proof.
  induction s as [|c s IH]; [done|].
  cbn [sinterleave]. rewrite !to_bytes_cons, to_bytes_app, IH. done.
Qed.

Lemma strings_ReplaceAll_bytes (s old new : string) :
  to_bytes (strings_ReplaceAll s old new)
  = bytes_ReplaceAll (to_bytes s) (to_bytes old) (to_bytes new).
Proof.
  destruct old as [|a old].
  - cbn [strings_ReplaceAll]. rewrite to_bytes_app, sinterleave_bytes. done.
  - cbn [strings_ReplaceAll]. rewrite sreplace_scan_bytes. by rewrite to_bytes_cons.
Qed.

Lemma path_step_bytes (result : string) (kv : string * string) :
  to_bytes (path_step result kv) = content_step (to_bytes result) kv.
Proof. unfold path_step, content_step. cbn zeta. by rewrite !strings_ReplaceAll_bytes. Qed.

Lemma ReplaceInPath_bytes (order : list (string * string)) (path : string) :
  to_bytes (ReplaceInPath order path) = ReplaceInContent order (to_bytes path).
Proof.
  unfold ReplaceInPath, ReplaceInContent. revert path.
  induction order as [|kv order IH]; intros path; [done|].
  cbn [foldl]. by rewrite IH, path_step_bytes.
Qed.


(** ** Binary classification *)

Lemma has_null_byte_spec (buffer : bytes) :
  has_null_byte buffer = true ↔ ∃ i, buffer !! i = Some Byte.x00.
Proof.
  induction buffer as [|b buffer IH]; cbn [has_null_byte].
  - split; [done | intros [i Hi]; by rewrite lookup_nil in Hi].
  - destruct (Byte.eqb b Byte.x00) eqn:E.
    + apply byte_eqb_eq in E as ->. split; [|done]. intros _. by exists 0.
    + rewrite IH. split.
      * intros [i Hi]. by exists (S i).
      * intros [[|i] Hi]; [|by exists i].
        injection Hi as ->. by rewrite byte_eqb_refl in E.
Qed.

(** C7.  A path is classified binary exactly when it opens for reading as
    a file with a zero byte among its first 512 bytes; a path that does not
    open (missing, or not readable) is classified not binary, and the call
    has no error result. *)
Theorem IsBinaryFile_spec (fs : filesystem) (filePath : fpath) :
  (IsBinaryFile fs filePath = true ↔
     ∃ m data i, Open fs filePath = inr (File m data) ∧
                 i < 512 ∧ data !! i = Some Byte.x00) ∧
  (∀ e, Open fs filePath = inl e → IsBinaryFile fs filePath = false).
Proof.
  unfold IsBinaryFile. split; [|by intros e ->].
  destruct (Open fs filePath) as [e|[m data|m]] eqn:HO.
  - split; [done | by intros (?&?&?&?&_)].
  - destruct data as [|b data].
    + cbn [Read]. split; [done|]. intros (m'&d&i&Heq&_&Hi).
      injection Heq as <- <-. by rewrite lookup_nil in Hi.
    + cbn [Read]. rewrite has_null_byte_spec. split.
      * intros [i Hi]. apply lookup_take_Some in Hi as [Hi Hlt]. eauto 10.
      * intros (m'&d&i&Heq&Hlt&Hi). injection Heq as <- <-.
        exists i. by apply lookup_take_Some.
  - cbn [Read]. split; [done | by intros (?&?&?&?&_)].
Qed.

(** ** The format selection and the replacer *)

(** C1.  With the percent format disabled in the configuration, the
    replacer the generator builds still rewrites the percent placeholder
    of a variable, in contents and in paths, next to the brace placeholder
    of the same variable: the selection does not reach the replacer. *)
Theorem disabled_format_still_replaced :
  let g := NewGenerator (sample_config without_percent false) in
  let order := map_to_list (variables (replacer g)) in
  EnablePercent (Formats (cfg g)) = false ∧
  range_order (variables (replacer g)) order ∧
  ReplaceInContent order (to_bytes "v%version% of {{name}}")
    = to_bytes "v1.0 of World" ∧
  ReplaceInPath order "v%version% of {{name}}" = "v1.0 of World".
Proof.
  cbn zeta. split; [done|]. split; [apply range_order_canonical|].
  split; vm_compute; reflexivity.
Qed.

(** ** Extraction *)

Lemma add_matches_spec (vars : gset string) (matches : list bytes) (name : string) :
  name ∈ add_matches vars matches ↔
  name ∈ vars ∨ ∃ m, m ∈ matches ∧ name = of_bytes m.
Proof.
  unfold add_matches. revert vars.
  induction matches as [|m matches IHm]; intros vars; cbn [foldl].
  - split; [by left | intros [?|(m&Hm&_)]; [done | by apply elem_of_nil in Hm]].
  - rewrite IHm, elem_of_union, elem_of_singleton. split.
    + intros [[?| ->]|(m'&?&?)].
      * by left.
      * right. exists m. split; [apply elem_of_cons; by left | done].
      * right. exists m'. split; [apply elem_of_cons; by right | done].
    + intros [?|(m'&[->|?]%elem_of_cons&->)].
      * left. by left.
      * left. by right.
      * right. eauto.
Qed.

(** C6.  The names [ExtractVariablesFromFile] returns are, without
    repetition, the names matched by one of the four scans of the buffer;
    the function takes no format selection, and on the buffer of the
    scenario it returns the four names [a], [b], [c], [d]. *)
Theorem ExtractVariablesFromFile_union :
  (∀ content, NoDup (ExtractVariablesFromFile content)) ∧
  (∀ content name,
     name ∈ ExtractVariablesFromFile content ↔
     ∃ m, name = of_bytes m ∧
          (m ∈ FindAllSubmatch pattern1 content ∨
           m ∈ FindAllSubmatch pattern2 content ∨
           m ∈ FindAllSubmatch pattern3 content ∨
           m ∈ FindAllSubmatch pattern4 content)) ∧
  ExtractVariablesFromFile (to_bytes "{{a}}, <<b>>, __c__, %d%")
    ≡ₚ ["a"; "b"; "c"; "d"] ∧
  ExtractVariablesFromPath "{{a}}, <<b>>, __c__, %d%" ≡ₚ ["a"; "b"; "c"; "d"].
Proof.
  split; [intros content; unfold ExtractVariablesFromFile; apply NoDup_elements|].
  split.
  - intros content name. unfold ExtractVariablesFromFile, extracted.
    rewrite elem_of_elements. cbn zeta. rewrite !add_matches_spec.
    split.
    + intros [[[[[]%not_elem_of_empty|(m&?&?)]|(m&?&?)]|(m&?&?)]|(m&?&?)];
        exists m; tauto.
    + intros (m&->&[?|[?|[?|?]]]); eauto 10.
  - assert (E : ExtractVariablesFromFile (to_bytes "{{a}}, <<b>>, __c__, %d%")
                = ["c"; "a"; "b"; "d"]) by (vm_compute; reflexivity).
    unfold ExtractVariablesFromPath. unfold ExtractVariablesFromFile in E.
    rewrite E.
    assert (P : ["c"; "a"; "b"; "d"] ≡ₚ ["a"; "b"; "c"; "d"]).
    { etrans; [apply perm_swap | apply perm_skip, perm_swap]. }
    by split.
Qed.

(** ** Generation *)

Lemma generate_entry_dry_run (g : Generator) (pick : orders) path info err w :
  DryRun (cfg g) = true →
  fsys (generate_entry g pick path info err w).1 = fsys w.
Proof.
  intros Hdry. unfold generate_entry.
  destruct err as [e|]; [done|]. destruct info as [info|]; [|done].
  destruct (String.eqb _ "."); [done|]. cbn zeta.
  destruct (IsDir info); rewrite ?Hdry; [done|].
  unfold processFile. rewrite Hdry. cbn [fsys next_call].
  destruct (Open (fsys w) path) as [e|src]; [done|].
  destruct (IsBinaryFile (fsys w) path); [done|].
  destruct (ReadAll src); done.
Qed.

Lemma walk_keeps_fsys (walkFn : WalkFunc) :
  (∀ path info err w, fsys (walkFn path info err w).1 = fsys w) →
  ∀ fuel path info w r,
    walk fuel walkFn path info w = Some r → fsys r.1 = fsys w.
Proof.
  intros Hfn. induction fuel as [|fuel IH]; intros path info w r Hr; [done|].
  cbn [walk] in Hr.
  destruct (negb (IsDir info)).
  { injection Hr as <-. apply Hfn. }
  destruct (readDir (fsys w) path info) as [e|names].
  { injection Hr as <-. apply Hfn. }
  pose proof (Hfn path (Some info) None w) as H1.
  destruct (walkFn path (Some info) None w) as [w1 [err1|]].
  { injection Hr as <-. done. }
  cbn [fst] in H1. rewrite <- H1. clear H1.
  revert w1 Hr. induction names as [|name names IHn]; intros w1 Hr.
  { injection Hr as <-. done. }
  destruct (Lstat (fsys w1) (path ++ [name])) as [e|ent].
  - pose proof (Hfn (path ++ [name]) None (Some e) w1) as H2.
    destruct (walkFn (path ++ [name]) None (Some e) w1) as [w' [err|]].
    + injection Hr as <-. done.
    + rewrite (IHn w' Hr). done.
  - destruct (walk fuel walkFn (path ++ [name]) (info_of ent) w1)
      as [[w' [err|]]|] eqn:Ew; [| |done].
    + injection Hr as <-. apply (IH _ _ _ _ Ew).
    + rewrite (IHn w' Hr). apply (IH _ _ _ _ Ew).
Qed.

(** In a dry run the walk leaves the file system alone: what [Generate]
    changes, if anything, is what making the output root changes. *)
Lemma dry_run_only_makes_output_root
    (g : Generator) (pick : orders) (fuel : nat) (w w' : world)
    (e : option error) :
  DryRun (cfg g) = true →
  Generate g pick fuel w = Some (w', e) →
  fsys w' = fsys w ∨
  MkdirAll (fsys w) (path_of (OutputDir (cfg g))) perm_0755 = inr (fsys w').
Proof.
  intros Hdry. unfold Generate.
  destruct (IsNotExist _); [intros [= <- _]; by left|].
  destruct (MkdirAll _ _ _) as [err|fs'] eqn:Emk; [intros [= <- _]; by left|].
  intros Hw. right. f_equal. unfold Walk in Hw. cbn [fsys set_fsys] in Hw.
  destruct (Lstat fs' _) as [err|ent].
  - unfold generate_entry in Hw. by injection Hw as <- _.
  - apply walk_keeps_fsys in Hw; [done|].
    intros. by apply generate_entry_dry_run.
Qed.

(** C2.  A dry run on the sample template, with nothing at [output]
    before: the run reports the six lines of the plan and returns no
    error, and [output] is a directory afterwards.  [Generate] makes the
    output root before the walk, whatever the dry-run flag. *)
Theorem dry_run_creates_output_root :
  let g := NewGenerator (sample_config all_formats true) in
  DryRun (cfg g) = true ∧
  Lstat (fsys sample_world) ["output"] = inl ENOENT ∧
  ∃ w', Generate g sample_orders 5 sample_world = Some (w', None) ∧
        Lstat (fsys w') ["output"] = inr (Dir perm_0755) ∧
        stdout w' =
          [ WouldCreateFile ["output"; "README.md"];
            ContentPreview "Hello World!";
            WouldCreateFile ["output"; "World.txt"];
            ContentPreview "v1.0";
            WouldCreateDirectory ["output"; "sub"];
            WouldCopyBinary ["template"; "sub"; "tool"] ["output"; "sub"; "tool"] ].
Proof.
  cbn zeta. split; [done|]. split; [vm_compute; reflexivity|].
  eexists. split; [vm_compute; reflexivity|].
  split; vm_compute; reflexivity.
Qed.

Lemma OpenFile_trunc_new (fs fs' : filesystem) (path : fpath) (perm : N) :
  OpenFile_trunc fs path perm = inr fs' →
  tree fs !! path = None →
  tree fs' = <[path := File (created_mode fs perm) []]> (tree fs) ∧
  umask fs' = umask fs.
Proof.
  unfold OpenFile_trunc. destruct path as [|n path]; [done|].
  destruct (Lstat fs (Dir_of (n :: path))) as [e|[m d|m]]; [done..|].
  intros H Hnone. rewrite Hnone in H. by injection H as <-.
Qed.

(** A file [copyFile] creates has the mode 0644 (less the umask), whatever
    the mode of its source. *)
Lemma copyFile_new_mode (source destination : fpath) (w w' : world) :
  copyFile source destination w = (w', None) →
  tree (fsys w) !! destination = None →
  ∃ data, tree (fsys w') !! destination
          = Some (File (created_mode (fsys w) perm_0644) data).
Proof.
  unfold copyFile. intros H Hnone.
  destruct (Open (fsys w) source) as [e|src]; [done|].
  destruct (OpenFile_trunc (fsys w) destination perm_0644) as [e|fs'] eqn:Eo;
    [done|].
  destruct (OpenFile_trunc_new _ _ _ _ Eo Hnone) as [Ht Hu].
  destruct (Lstat fs' source) as [e|now]; [done|].
  destruct (ReadAll now) as [e|data]; [done|].
  injection H as <-. exists data. cbn [fsys set_fsys].
  unfold Write. rewrite Ht, lookup_insert_eq. cbn [tree with_tree].
  by rewrite lookup_insert_eq.
Qed.

(** C3.  A real run on the sample template with umask 0: the directory
    keeps mode 0700 and the text file mode 0600, and the binary file is
    copied byte for byte but gets mode 0644 where its source has 0755:
    [copyFile] opens the destination with the constant 0644. *)
Theorem binary_copy_gets_0644 :
  let g := NewGenerator (sample_config all_formats false) in
  let data := to_bytes "ELF" ++ [Byte.x00] ++ to_bytes "{{name}}" in
  IsBinaryFile (fsys sample_world) ["template"; "sub"; "tool"] = true ∧
  tree (fsys sample_world) !! ["template"; "sub"; "tool"] = Some (File 493 data) ∧
  ∃ w', Generate g sample_orders 5 sample_world = Some (w', None) ∧
        tree (fsys w') !! ["output"; "sub"; "tool"] = Some (File perm_0644 data) ∧
        tree (fsys w') !! ["output"; "sub"] = Some (Dir 448) ∧
        tree (fsys w') !! ["output"; "World.txt"] = Some (File 384 (to_bytes "v1.0")).
Proof.
  cbn zeta. split; [vm_compute; reflexivity|]. split; [vm_compute; reflexivity|].
  eexists. split; [vm_compute; reflexivity|].
  repeat split; vm_compute; reflexivity.
Qed.

(** C4, as stated, fails: when the template path is a regular file,
    [Generate] makes the output root and returns without an error. *)
Lemma source_root_file_not_rejected :
  ¬ (∀ (g : Generator) (pick : orders) (fuel : nat) (w : world),
       (∀ m, Stat (fsys w) (path_of (TemplateDir (cfg g))) ≠ inr (Dir m)) →
       ∃ e, Generate g pick fuel w = Some (w, Some e)).
Proof.
  intros H.
  destruct (H (NewGenerator (sample_config all_formats false)) sample_orders 5
              file_root_world) as [e He].
  - intros m. vm_compute. discriminate.
  - vm_compute in He. discriminate.
Qed.

(** C4, amended.  When the template path does not exist, [Generate]
    returns the error that says so, and the file system, like the rest of
    the state, is as it was: nothing was created. *)
Theorem missing_source_root_fails_first
    (g : Generator) (pick : orders) (fuel : nat) (w : world) :
  Stat (fsys w) (path_of (TemplateDir (cfg g))) = inl ENOENT →
  Generate g pick fuel w = Some (w, Some (TemplateMissing (TemplateDir (cfg g)))).
Proof. intros H. unfold Generate. by rewrite H. Qed.

Lemma missing_source_root_fails_first_witness :
  Stat (fsys empty_world) (path_of "./template") = inl ENOENT ∧
  Generate (NewGenerator (sample_config all_formats false)) sample_orders 5
    empty_world
  = Some (empty_world, Some (TemplateMissing "./template")).
Proof.
  split; [vm_compute; reflexivity|].
  apply (missing_source_root_fails_first
           (NewGenerator (sample_config all_formats false)) sample_orders 5
           empty_world).
  vm_compute; reflexivity.
Defined.

(** ** Passes against simultaneous substitution *)

Lemma forallb_elem_of {A} (f : A → bool) (l : list A) :
  forallb f l = true ↔ ∀ x, x ∈ l → f x = true.
Proof.
  rewrite forallb_forall. split; intros H x Hx; apply H; by apply list_elem_of_In.
Qed.

Lemma drop_tail {A} (j : nat) (s : list A) : drop j (tail s) = drop (S j) s.
Proof. destruct s; simpl; [by destruct j | done]. Qed.

Lemma none_starts_spec (pats : list bytes) (k : nat) (s : bytes) :
  none_starts pats k s = true ↔
  ∀ j, j < k → ∀ q, q ∈ pats → HasPrefix (drop j s) q = false.
Proof.
  revert s. induction k as [|k IH]; intros s; cbn [none_starts].
  - split; [intros _ j Hj; lia | done].
  - rewrite andb_true_iff, forallb_elem_of. split.
    + intros [H0 Hk] [|j] Hj q Hq.
      * rewrite drop_0. apply negb_true_iff. by apply H0.
      * destruct s as [|c s]; [|by apply (proj1 (IH s) Hk j); [lia|]].
        rewrite drop_nil. apply negb_true_iff. by apply H0.
    + intros H. split.
      * intros q Hq. apply negb_true_iff. apply (H 0); [lia | done].
      * destruct s as [|c s]; [done|]. apply IH. intros j Hj q Hq.
        apply (H (S j)); [lia | done].
Qed.

Lemma apart_here_spec (pats : list bytes) (s : bytes) :
  apart_here pats s = true ↔
  ∀ p, p ∈ pats → HasPrefix s p = true →
    (∀ q, q ∈ pats → HasPrefix s q = true → q = p) ∧
    (∀ j, 0 < j < length p → ∀ q, q ∈ pats → HasPrefix (drop j s) q = false).
Proof.
  unfold apart_here. rewrite forallb_elem_of.
  apply forall_proper; intros p. apply forall_proper; intros Hp.
  destruct (HasPrefix s p) eqn:E; cbn [negb orb].
  - rewrite andb_true_iff, forallb_elem_of, none_starts_spec. split.
    + intros [Hu Hn] _. split.
      * intros q Hq Hs. specialize (Hu q Hq). rewrite Hs in Hu.
        by apply bool_decide_eq_true in Hu.
      * intros j [Hj1 Hj2] q Hq. destruct j as [|j]; [lia|].
        specialize (Hn j ltac:(lia) q Hq). by rewrite drop_tail in Hn.
    + intros H. destruct (H eq_refl) as [Hu Hn]. split.
      * intros q Hq. destruct (HasPrefix s q) eqn:Eq; [|done].
        cbn [negb orb]. apply bool_decide_eq_true. by apply Hu.
      * intros j Hj q Hq. rewrite drop_tail. apply Hn; [lia | done].
  - split; [intros _ ?; discriminate | done].
Qed.

Lemma simultaneous_scan_skip (ps : list (bytes * bytes)) (k : nat) (s : bytes) :
  simultaneous_scan ps k s = simultaneous_scan ps 0 (drop k s).
Proof.
  revert k. induction s as [|c s IH]; intros [|k]; simpl; done.
Qed.

Lemma simultaneous_match (ps : list (bytes * bytes)) (p v r : bytes) :
  p ≠ [] →
  find (fun pv => HasPrefix (p ++ r) pv.1) ps = Some (p, v) →
  simultaneous ps (p ++ r) = v ++ simultaneous ps r.
Proof.
  intros Hne Hf. unfold simultaneous.
  destruct p as [|c p]; [done|].
  change ((c :: p) ++ r) with (c :: (p ++ r)) in *.
  cbn [simultaneous_scan]. rewrite Hf. cbn [fst snd].
  rewrite simultaneous_scan_skip.
  replace (length (c :: p) - 1) with (length p) by (cbn [length]; lia).
  by rewrite drop_app_length.
Qed.

Lemma simultaneous_copy (ps : list (bytes * bytes)) (c : byte) (t : bytes) :
  (∀ pv, pv ∈ ps → HasPrefix (c :: t) pv.1 = false) →
  simultaneous ps (c :: t) = c :: simultaneous ps t.
Proof.
  intros Hn. unfold simultaneous. cbn [simultaneous_scan].
  destruct (find _ ps) as [pv|] eqn:Hf; [|done].
  apply find_some in Hf as [Hin Hs]. apply list_elem_of_In in Hin.
  by rewrite (Hn pv Hin) in Hs.
Qed.

Lemma simultaneous_through (ps : list (bytes * bytes)) (a t : bytes) :
  (∀ j, j < length a → ∀ pv, pv ∈ ps → HasPrefix (drop j (a ++ t)) pv.1 = false) →
  simultaneous ps (a ++ t) = a ++ simultaneous ps t.
Proof.
  induction a as [|c a IH]; intros Hn; [done|].
  change ((c :: a) ++ t) with (c :: (a ++ t)).
  rewrite simultaneous_copy.
  - rewrite IH; [done|]. intros j Hj pv Hpv.
    apply (Hn (S j)); [simpl; lia | done].
  - intros pv Hpv. apply (Hn 0); [simpl; lia | done].
Qed.

Lemma ReplaceAll_through (a t old new : bytes) :
  old ≠ [] →
  (∀ j, j < length a → HasPrefix (drop j (a ++ t)) old = false) →
  bytes_ReplaceAll (a ++ t) old new = a ++ bytes_ReplaceAll t old new.
Proof.
  intros Hne. induction a as [|c a IH]; intros Hn; [done|].
  change ((c :: a) ++ t) with (c :: (a ++ t)).
  rewrite ReplaceAll_copy; [|done|apply (Hn 0); simpl; lia].
  rewrite IH; [done|]. intros j Hj. apply (Hn (S j)). simpl; lia.
Qed.

(** A prefix read in the result of a pass, when the first byte of the
    value is not in it, was there before the pass. *)
Lemma prefix_before_pass (old v' t r : bytes) (c0 : byte) :
  old ≠ [] → c0 ∉ r →
  HasPrefix (bytes_ReplaceAll t old (c0 :: v')) r = true →
  HasPrefix t r = true.
Proof.
  intros Hne. revert r. induction t as [|b t IH]; intros r Hc Hp.
  - by rewrite ReplaceAll_nil in Hp.
  - destruct r as [|x r]; [done|].
    destruct (HasPrefix (b :: t) old) eqn:E.
    + apply HasPrefix_true in E as [t' E]. rewrite E in Hp.
      rewrite ReplaceAll_match in Hp by done.
      cbn [app HasPrefix] in Hp. apply andb_true_iff in Hp as [Hx _].
      apply byte_eqb_eq in Hx as ->. exfalso. apply Hc. by left.
    + rewrite ReplaceAll_copy in Hp by done.
      cbn [HasPrefix] in *. apply andb_true_iff in Hp as [Hx Hp].
      rewrite Hx. cbn [andb]. apply IH; [|done].
      intros Hin. apply Hc. by right.
Qed.

Lemma prefix_before_pass_app (old v' a t q : bytes) (c0 : byte) :
  old ≠ [] → c0 ∉ q →
  HasPrefix (a ++ bytes_ReplaceAll t old (c0 :: v')) q = true →
  HasPrefix (a ++ t) q = true.
Proof.
  intros Hne. revert q. induction a as [|x a IH]; intros q Hc Hp.
  - by eapply prefix_before_pass.
  - destruct q as [|y q]; [done|].
    cbn [app HasPrefix] in *. apply andb_true_iff in Hp as [Hx Hp].
    rewrite Hx. cbn [andb]. apply IH; [|done].
    intros Hin. apply Hc. by right.
Qed.

Lemma inert_value_spec (pats : list bytes) (v : bytes) :
  inert_value pats v = true ↔
  ∃ c v', v = c :: v' ∧
    (∀ q, q ∈ pats → (c ∉ q) ∧ (∃ d q', q = d :: q' ∧ d ∉ v)).
Proof.
  unfold inert_value. destruct v as [|c v'].
  - split; [done | by intros (?&?&?&_)].
  - rewrite forallb_elem_of. split.
    + intros H. exists c, v'. split; [done|]. intros q Hq.
      specialize (H q Hq). apply andb_true_iff in H as [H1 H2].
      apply negb_true_iff, bool_decide_eq_false in H1. split; [done|].
      destruct q as [|d q']; [done|].
      apply negb_true_iff, bool_decide_eq_false in H2. eauto.
    + intros (c'&v''&Heq&H) q Hq. injection Heq as <- <-.
      destruct (H q Hq) as [H1 (d&q'&->&H2)].
      apply andb_true_iff. split; apply negb_true_iff, bool_decide_eq_false; done.
Qed.

(** No pattern starts inside a value none of whose bytes is the first
    byte of a pattern. *)
Lemma value_blocks (pats : list bytes) (v x : bytes) :
  (∀ q, q ∈ pats → ∃ d q', q = d :: q' ∧ d ∉ v) →
  ∀ j, j < length v → ∀ q, q ∈ pats → HasPrefix (drop j (v ++ x)) q = false.
Proof.
  intros H j Hj q Hq. destruct (H q Hq) as (d&q'&->&Hd).
  rewrite drop_app_le by lia.
  destruct (lookup_lt_is_Some_2 v j Hj) as [e He].
  rewrite (drop_S _ _ _ He). cbn [app HasPrefix].
  destruct (Byte.eqb d e) eqn:E; [|done].
  apply byte_eqb_eq in E as ->. exfalso. apply Hd.
  by eapply list_elem_of_lookup_2.
Qed.

Lemma separated_app_r (pats : list bytes) (a x : bytes) :
  separated pats (a ++ x) = true → separated pats x = true.
Proof.
  induction a as [|c a IH]; [done|]. cbn [app separated].
  intros [_ H]%andb_true_iff. by apply IH.
Qed.

Lemma separated_prepend (pats : list bytes) (a x : bytes) :
  separated pats x = true →
  (∀ j, j < length a → apart_here pats (drop j (a ++ x)) = true) →
  separated pats (a ++ x) = true.
Proof.
  intros Hx. induction a as [|c a IH]; intros Ha; [done|].
  cbn [app separated]. apply andb_true_iff. split.
  - apply (Ha 0). simpl; lia.
  - apply IH. intros j Hj. apply (Ha (S j)). simpl; lia.
Qed.

Lemma apart_vacuous (pats : list bytes) (s : bytes) :
  (∀ q, q ∈ pats → HasPrefix s q = false) → apart_here pats s = true.
Proof.
  intros H. apply apart_here_spec. intros p Hp Hs. by rewrite (H p Hp) in Hs.
Qed.

Lemma find_ext_in {A} (f g : A → bool) (l : list A) :
  (∀ x, x ∈ l → f x = g x) → find f l = find g l.
Proof.
  induction l as [|x l IH]; intros H; [done|]. cbn [find].
  rewrite (H x) by (by left). rewrite IH; [done|].
  intros y Hy. apply H. by right.
Qed.

Lemma elem_of_fst {A B} (x : A) (l : list (A * B)) :
  x ∈ l.*1 ↔ ∃ y, (x, y) ∈ l.
Proof.
  rewrite list_elem_of_fmap. split.
  - intros ([x' y]&->&H). by exists y.
  - intros [y H]. by exists (x, y).
Qed.

Lemma rest_shorter (q r s : bytes) (n : nat) :
  s = q ++ r → q ≠ [] → (length s ≤ S n)%nat → (length r ≤ n)%nat.
Proof.
  intros -> Hq. rewrite length_app. destruct q; [done|]. simpl. lia.
Qed.

Section one_pass.
Variables (p v' : bytes) (c0 : byte) (ps' : list (bytes * bytes)).
Hypothesis p_nonempty : p ≠ [].
Hypothesis rest_inert :
  ∀ q, q ∈ ps'.*1 → (c0 ∉ q) ∧ (∃ d q', q = d :: q' ∧ d ∉ c0 :: v').

Lemma rest_nonempty (q : bytes) : q ∈ ps'.*1 → q ≠ [].
Proof. intros Hq. by destruct (rest_inert q Hq) as [_ (d&q'&->&_)]. Qed.

Lemma rest_blocked (x : bytes) (j : nat) (pv : bytes * bytes) :
  j < length (c0 :: v') → pv ∈ ps' →
  HasPrefix (drop j ((c0 :: v') ++ x)) pv.1 = false.
Proof.
  intros Hj Hpv. apply (value_blocks ps'.*1); [|done|].
  - intros q Hq. by destruct (rest_inert q Hq).
  - apply elem_of_fst. exists pv.2. by destruct pv.
Qed.

(** After the pass for [p], the simultaneous substitution of the other
    patterns gives what the simultaneous substitution of all of them gives
    on the buffer before the pass, and their occurrences are still
    apart. *)
Lemma pass_then_simultaneous (n : nat) (s : bytes) :
  (length s ≤ n)%nat →
  separated (p :: ps'.*1) s = true →
  separated ps'.*1 (bytes_ReplaceAll s p (c0 :: v')) = true ∧
  simultaneous ps' (bytes_ReplaceAll s p (c0 :: v'))
    = simultaneous ((p, c0 :: v') :: ps') s.
Proof.
  revert s. induction n as [|n IH]; intros s Hlen Hsep.
  { destruct s; [|simpl in Hlen; lia]. by rewrite ReplaceAll_nil. }
  destruct s as [|b s]; [by rewrite ReplaceAll_nil|].
  pose proof Hsep as Hsep0.
  cbn [separated] in Hsep. apply andb_true_iff in Hsep as [Hhere Hrest].
  destruct (HasPrefix (b :: s) p) eqn:Ep.
  - (* the pattern of the pass starts here *)
    apply HasPrefix_true in Ep as [r Er].
    pose proof (rest_shorter _ _ _ _ Er p_nonempty Hlen) as Hr.
    rewrite Er in *.
    rewrite ReplaceAll_match by done.
    destruct (IH r Hr (separated_app_r _ _ _ Hsep0)) as [IH1 IH2].
    split.
    + apply separated_prepend; [done|]. intros j Hj. apply apart_vacuous.
      intros q Hq. apply elem_of_fst in Hq as [w Hq].
      by apply (rest_blocked _ j (q, w)).
    + rewrite simultaneous_through by (intros; by apply rest_blocked).
      rewrite IH2. symmetry. apply simultaneous_match; [done|].
      cbn [find fst]. by rewrite HasPrefix_app.
  - destruct (find (fun pv => HasPrefix (b :: s) pv.1) ps') as [[q w]|] eqn:Ef.
    + (* another pattern starts here *)
      pose proof Ef as Ef0.
      apply find_some in Ef as [Hin Hs]. apply list_elem_of_In in Hin.
      cbn [fst] in Hs.
      assert (Hq : q ∈ ps'.*1) by (apply elem_of_fst; eauto).
      pose proof (rest_nonempty q Hq) as Hqne.
      pose proof Hs as Hs0.
      apply HasPrefix_true in Hs as [r Er].
      pose proof (rest_shorter _ _ _ _ Er Hqne Hlen) as Hr.
      assert (Hq0 : 0 < length q) by (destruct q; [done | simpl; lia]).
      rewrite Er in *.
      destruct (proj1 (apart_here_spec _ _) Hhere q ltac:(by right) Hs0)
        as [Hu Hn].
      destruct (IH r Hr (separated_app_r _ _ _ Hsep0)) as [IH1 IH2].
      assert (HB : ∀ j, j < length q → HasPrefix (drop j (q ++ r)) p = false).
      { intros [|j] Hj; [by rewrite drop_0|]. apply Hn; [lia | by left]. }
      rewrite ReplaceAll_through by done.
      assert (Hsame : ∀ j, j < length q → ∀ q', q' ∈ ps'.*1 →
                HasPrefix (drop j (q ++ bytes_ReplaceAll r p (c0 :: v'))) q'
                = HasPrefix (drop j (q ++ r)) q').
      { intros j Hj q' Hq'.
        destruct (HasPrefix (drop j (q ++ r)) q') eqn:E1.
        - destruct j as [|j].
          + rewrite drop_0 in E1. rewrite (Hu q' ltac:(by right) E1).
            rewrite drop_0. apply HasPrefix_app.
          + rewrite (Hn (S j) ltac:(lia) q' ltac:(by right)) in E1. done.
        - destruct (HasPrefix (drop j (q ++ bytes_ReplaceAll r p (c0 :: v'))) q')
            eqn:E2; [|done].
          rewrite drop_app_le in E1, E2 by lia.
          apply prefix_before_pass_app in E2;
            [congruence | done | by destruct (rest_inert q' Hq')]. }
      split.
      * apply separated_prepend; [done|]. intros j Hj.
        apply apart_here_spec. intros p1 Hp1 Hs1.
        rewrite Hsame in Hs1 by done.
        destruct j as [|j];
          [|by rewrite (Hn (S j) ltac:(lia) p1 ltac:(by right)) in Hs1].
        rewrite drop_0 in *.
        assert (p1 = q) as -> by (apply Hu; [by right | done]).
        split.
        -- intros q2 Hq2 Hs2.
           rewrite <- (drop_0 (q ++ bytes_ReplaceAll r p (c0 :: v'))) in Hs2.
           rewrite Hsame in Hs2 by done.
           rewrite drop_0 in Hs2. apply Hu; [by right | done].
        -- intros j Hj' q3 Hq3. rewrite Hsame by (done || lia).
           apply Hn; [done | by right].
      * rewrite (simultaneous_match ps' q w) ; [|done|].
        -- rewrite IH2. symmetry. apply simultaneous_match; [done|].
           cbn [find fst]. pose proof (HB 0 Hq0) as HB0. rewrite drop_0 in HB0.
           by rewrite HB0.
        -- rewrite <- Ef0. apply find_ext_in. intros [q' w'] Hin'. cbn [fst].
           rewrite <- (drop_0 (q ++ bytes_ReplaceAll r p (c0 :: v'))).
           rewrite Hsame; [by rewrite drop_0 | done |].
           apply elem_of_fst; eauto.
    + (* no pattern starts here *)
      assert (Hnone : ∀ pv, pv ∈ ps' → HasPrefix (b :: s) pv.1 = false).
      { intros pv Hpv. apply (find_none _ _ Ef). by apply list_elem_of_In. }
      rewrite ReplaceAll_copy by done.
      assert (Hs : (length s ≤ n)%nat) by (simpl in Hlen; lia).
      destruct (IH s Hs Hrest) as [IH1 IH2].
      assert (Hafter : ∀ pv, pv ∈ ps' →
                HasPrefix (b :: bytes_ReplaceAll s p (c0 :: v')) pv.1 = false).
      { intros pv Hpv.
        destruct (HasPrefix (b :: bytes_ReplaceAll s p (c0 :: v')) pv.1) eqn:E;
          [|done].
        apply (prefix_before_pass_app p v' [b]) in E; [|done|].
        - cbn [app] in E. by rewrite (Hnone pv Hpv) in E.
        - apply rest_inert. apply elem_of_fst. exists pv.2. by destruct pv. }
      split.
      * cbn [separated]. rewrite IH1, andb_true_r. apply apart_vacuous.
        intros q [w Hq]%elem_of_fst. apply (Hafter (q, w) Hq).
      * rewrite simultaneous_copy by done. rewrite IH2. symmetry.
        apply simultaneous_copy. intros pv [->|Hpv]%elem_of_cons; [done|].
        by apply Hnone.
Qed.
End one_pass.

Lemma simultaneous_nil (s : bytes) : simultaneous [] s = s.
Proof.
  induction s as [|c s IH]; [done|].
  rewrite simultaneous_copy; [by rewrite IH|]. by intros pv ?%elem_of_nil.
Qed.

Lemma inert_value_weaken (p : bytes) (pats : list bytes) (v : bytes) :
  inert_value (p :: pats) v = true → inert_value pats v = true.
Proof.
  rewrite !inert_value_spec. intros (c&v'&->&H). exists c, v'.
  split; [done|]. intros q Hq. apply H. by right.
Qed.

Lemma inert_cons (p v : bytes) (ps : list (bytes * bytes)) :
  inert ((p, v) :: ps) = true →
  inert_value (p :: ps.*1) v = true ∧ inert ps = true.
Proof.
  unfold inert. cbn [fmap list_fmap fst snd forallb].
  intros [Hv Hrest]%andb_true_iff. split; [done|].
  apply forallb_elem_of. intros w Hw.
  apply (inert_value_weaken p). by apply (proj1 (forallb_elem_of _ _) Hrest).
Qed.

Lemma separated_nil_pats (s : bytes) : separated [] s = true.
Proof. induction s as [|c s IH]; [done|]. cbn [separated]. by rewrite IH. Qed.

(** Under the two conditions, running the passes one after the other is
    simultaneous substitution. *)
Lemma run_passes_simultaneous (ps : list (bytes * bytes)) (s : bytes) :
  inert ps = true → separated ps.*1 s = true →
  run_passes ps s = simultaneous ps s.
Proof.
  revert s. induction ps as [|[p v] ps IH]; intros s Hin Hsep.
  - by rewrite simultaneous_nil.
  - apply inert_cons in Hin as [Hv Hin].
    apply inert_value_spec in Hv as (c0&v'&->&Hv).
    assert (Hp : p ≠ []).
    { destruct (Hv p ltac:(by left)) as [_ (d&q'&->&_)]. done. }
    assert (Hrest : ∀ q, q ∈ ps.*1 →
              (c0 ∉ q) ∧ (∃ d q', q = d :: q' ∧ d ∉ c0 :: v')).
    { intros q Hq. apply Hv. by right. }
    destruct (pass_then_simultaneous p v' c0 ps Hp Hrest (length s) s
                ltac:(done) Hsep) as [H1 H2].
    unfold run_passes in *. cbn [foldl fst snd]. rewrite IH by done. done.
Qed.

(** ** The order of the passes *)

Lemma find_perm {A} (f : A → bool) (l l' : list A) :
  l ≡ₚ l' →
  (∀ x y, x ∈ l → y ∈ l → f x = true → f y = true → x = y) →
  find f l = find f l'.
Proof.
  induction 1 as [|x l l' Hp IH|x y l|l l' l'' Hp1 IH1 Hp2 IH2]; intros Hu.
  - done.
  - cbn [find]. destruct (f x); [done|]. apply IH.
    intros a b Ha Hb. apply Hu; by right.
  - cbn [find]. destruct (f x) eqn:Ex, (f y) eqn:Ey; try done.
    f_equal. apply Hu; [by left | by right; left | done | done].
  - rewrite IH1 by done. apply IH2.
    intros a b Ha Hb. apply Hu; by rewrite Hp1.
Qed.

Lemma fst_unique {A B} (l : list (A * B)) (x y : A * B) :
  NoDup l.*1 → x ∈ l → y ∈ l → x.1 = y.1 → x = y.
Proof.
  induction l as [|z l IH]; intros Hnd Hx Hy Heq; [by apply elem_of_nil in Hx|].
  cbn [fmap list_fmap] in Hnd. apply NoDup_cons in Hnd as [Hz Hnd].
  apply elem_of_cons in Hx as [->|Hx]; apply elem_of_cons in Hy as [->|Hy].
  - done.
  - exfalso. apply Hz. rewrite Heq. apply list_elem_of_fmap. by exists y.
  - exfalso. apply Hz. rewrite <- Heq. apply list_elem_of_fmap. by exists x.
  - by apply IH.
Qed.

Lemma simultaneous_perm (ps ps' : list (bytes * bytes)) (n : nat) (s : bytes) :
  ps ≡ₚ ps' → NoDup ps.*1 → (∀ q, q ∈ ps.*1 → q ≠ []) →
  (length s ≤ n)%nat → separated ps.*1 s = true →
  simultaneous ps s = simultaneous ps' s.
Proof.
  intros Hperm Hnd Hne. revert s. induction n as [|n IH]; intros s Hlen Hsep.
  { by destruct s; [|simpl in Hlen; lia]. }
  destruct s as [|b s]; [done|].
  pose proof Hsep as Hsep0.
  cbn [separated] in Hsep. apply andb_true_iff in Hsep as [Hhere Hrest].
  assert (Hfind : find (fun pv => HasPrefix (b :: s) pv.1) ps
                  = find (fun pv => HasPrefix (b :: s) pv.1) ps').
  { apply find_perm; [done|]. intros x y Hx Hy Hfx Hfy.
    apply (fst_unique ps); [done..|].
    destruct (proj1 (apart_here_spec _ _) Hhere y.1) as [Hu _].
    - apply list_elem_of_fmap. by exists y.
    - done.
    - apply Hu; [|done]. apply list_elem_of_fmap. by exists x. }
  destruct (find (fun pv => HasPrefix (b :: s) pv.1) ps) as [[q w]|] eqn:Ef.
  - pose proof Ef as Ef0. apply find_some in Ef as [Hin Hs].
    apply list_elem_of_In in Hin. cbn [fst] in Hs.
    assert (Hq : q ≠ []) by (apply Hne, elem_of_fst; eauto).
    apply HasPrefix_true in Hs as [r Er].
    pose proof (rest_shorter _ _ _ _ Er Hq Hlen) as Hr.
    rewrite Er in *.
    rewrite (simultaneous_match ps q w) by done.
    rewrite (simultaneous_match ps' q w) by done.
    f_equal. apply IH; [done|]. by eapply separated_app_r.
  - rewrite !simultaneous_copy.
    + f_equal. apply IH; [simpl in Hlen; lia | done].
    + intros pv Hpv. symmetry in Hfind.
      apply (find_none _ _ Hfind). by apply list_elem_of_In.
    + intros pv Hpv. apply (find_none _ _ Ef). by apply list_elem_of_In.
Qed.

Lemma apart_here_ext (pats pats' : list bytes) (s : bytes) :
  (∀ q, q ∈ pats ↔ q ∈ pats') → apart_here pats s = apart_here pats' s.
Proof.
  intros H. apply eq_true_iff_eq. rewrite !apart_here_spec.
  split; intros Ha p Hp Hs.
  - destruct (Ha p (proj2 (H p) Hp) Hs) as [Hu Hn]. split.
    + intros q Hq. apply Hu. by apply H.
    + intros j Hj q Hq. apply Hn; [done | by apply H].
  - destruct (Ha p (proj1 (H p) Hp) Hs) as [Hu Hn]. split.
    + intros q Hq. apply Hu. by apply H.
    + intros j Hj q Hq. apply Hn; [done | by apply H].
Qed.

Lemma separated_ext (pats pats' : list bytes) (s : bytes) :
  (∀ q, q ∈ pats ↔ q ∈ pats') → separated pats s = separated pats' s.
Proof.
  intros H. induction s as [|c s IH]; [done|].
  cbn [separated]. by rewrite IH, (apart_here_ext pats pats').
Qed.

Lemma inert_value_ext (pats pats' : list bytes) (v : bytes) :
  (∀ q, q ∈ pats ↔ q ∈ pats') → inert_value pats v = inert_value pats' v.
Proof.
  intros H. apply eq_true_iff_eq. rewrite !inert_value_spec.
  split; intros (c&v'&->&Hq); exists c, v'; (split; [done|]);
    intros q Hin; apply Hq; by apply H.
Qed.

Lemma inert_perm (ps ps' : list (bytes * bytes)) :
  ps ≡ₚ ps' → inert ps = inert ps'.
Proof.
  intros Hp. unfold inert. apply eq_true_iff_eq. rewrite !forallb_elem_of.
  assert (H1 : ∀ q, q ∈ ps.*1 ↔ q ∈ ps'.*1) by (intros q; by rewrite Hp).
  split; intros H v Hv.
  - rewrite <- (inert_value_ext _ _ v H1). apply H. by rewrite Hp.
  - rewrite (inert_value_ext _ _ v H1). apply H. by rewrite <- Hp.
Qed.

(** Two runs of the same passes in different orders agree, under the two
    conditions. *)
Lemma run_passes_perm (ps ps' : list (bytes * bytes)) (s : bytes) :
  ps ≡ₚ ps' → NoDup ps.*1 →
  inert ps = true → separated ps.*1 s = true →
  run_passes ps s = run_passes ps' s.
Proof.
  intros Hp Hnd Hin Hsep.
  assert (Hmem : ∀ q, q ∈ ps.*1 ↔ q ∈ ps'.*1) by (intros q; by rewrite Hp).
  rewrite run_passes_simultaneous by done.
  rewrite run_passes_simultaneous.
  - apply (simultaneous_perm ps ps' (length s)); try done.
    intros q Hq. destruct ps as [|[p v] ps0]; [by apply elem_of_nil in Hq|].
    apply inert_cons in Hin as [Hv _].
    apply inert_value_spec in Hv as (c&v'&_&Hv).
    by destruct (Hv q Hq) as [_ (d&q'&->&_)].
  - by rewrite <- (inert_perm ps ps').
  - by rewrite <- (separated_ext ps.*1 ps'.*1).
Qed.

(** ** The passes of [ReplaceInContent] *)

Lemma content_step_passes (result : bytes) (kv : string * string) :
  content_step result kv = run_passes (passes_of kv) result.
Proof. reflexivity. Qed.

Lemma ReplaceInContent_passes (order : list (string * string)) (content : bytes) :
  ReplaceInContent order content = run_passes (passes order) content.
Proof.
  unfold ReplaceInContent, passes. revert content.
  induction order as [|kv order IH]; intros content; [done|].
  cbn [foldl]. rewrite IH, content_step_passes.
  unfold run_passes. change (kv :: order) with ([kv] ++ order).
  rewrite bind_app, foldl_app. cbn [mbind list_bind]. by rewrite app_nil_r.
Qed.

Lemma passes_perm (order order' : list (string * string)) :
  order ≡ₚ order' → passes order ≡ₚ passes order'.
Proof. intros H. unfold passes. by rewrite H. Qed.

Lemma passes_patterns (order : list (string * string)) :
  (passes order).*1 = order.*1 ≫= placeholders.
Proof.
  unfold passes. induction order as [|kv order IH]; [done|].
  cbn [fmap list_fmap mbind list_bind]. rewrite fmap_app, <- IH. f_equal.
Qed.


Lemma wrapped_inj (l r k1 k2 : string) :
  to_bytes (l +:+ k1 +:+ r) = to_bytes (l +:+ k2 +:+ r) → k1 = k2.
Proof.
  rewrite !to_bytes_app. intros H%app_inv_head%app_inv_tail.
  by apply to_bytes_inj.
Qed.

Lemma placeholders_NoDup (key : string) : NoDup (placeholders key).
Proof.
  unfold placeholders. rewrite !to_bytes_app.
  repeat (apply NoDup_cons; split;
          [rewrite ?elem_of_cons, elem_of_nil; intros H;
           repeat (destruct H as [H|H]; [discriminate H|]); done|]).
  apply NoDup_nil_2.
Qed.

Lemma placeholders_inj (k1 k2 : string) (y : bytes) :
  y ∈ placeholders k1 → y ∈ placeholders k2 → k1 = k2.
Proof.
  unfold placeholders. rewrite !elem_of_cons, !elem_of_nil.
  intros [->|[->|[->|[->|[]]]]] [H|[H|[H|[H|[]]]]];
    first [ by apply wrapped_inj in H
          | rewrite !to_bytes_app in H; discriminate H ].
Qed.

Lemma passes_NoDup (order : list (string * string)) :
  NoDup order.*1 → NoDup (passes order).*1.
Proof.
  intros Hnd. rewrite passes_patterns. apply NoDup_bind; [|intros; apply placeholders_NoDup|done].
  intros k1 k2 y _ _. apply placeholders_inj.
Qed.

Lemma range_order_NoDup (vars : gmap string string) order :
  range_order vars order → NoDup order.*1.
Proof.
  unfold range_order. intros ->. apply NoDup_fst_map_to_list.
Qed.

(** ** Spans that no occurrence overlaps *)



(** ** The order of visit of the variables *)





(** ** Unresolved placeholders and the bytes around the occurrences *)




(** * Further properties of the substitution engine *)

Lemma content_step_nil (kv : string * string) : content_step [] kv = [].
Proof.
  unfold content_step. cbn zeta.
  by rewrite !ReplaceAll_nil by (rewrite to_bytes_app; discriminate).
Qed.

(** X1.  An empty buffer, and an empty path, come back empty whatever the
    variables and their values. *)
Theorem ReplaceInContent_empty (order : list (string * string)) :
  ReplaceInContent order [] = [] ∧ ReplaceInPath order "" = "".
Proof.
  assert (H : ReplaceInContent order [] = []).
  { unfold ReplaceInContent. induction order as [|kv order IH]; [done|].
    cbn [foldl]. by rewrite content_step_nil. }
  split; [done|]. apply to_bytes_inj. by rewrite ReplaceInPath_bytes.
Qed.

Lemma Contains_true (s sub : bytes) :
  Contains s sub = true ↔ ∃ pre post, s = pre ++ sub ++ post.
Proof.
  induction s as [|c s IH]; cbn [Contains].
  - rewrite orb_false_r, HasPrefix_true. split.
    + intros [r Hr]. by exists [], r.
    + intros (pre&post&H). destruct pre; [by exists post|discriminate].
  - rewrite orb_true_iff, HasPrefix_true, IH. split.
    + intros [[r Hr]|(pre&post&->)]; [by exists [], r|].
      by exists (c :: pre), post.
    + intros ([|c' pre]&post&H).
      * left. by exists post.
      * right. injection H as -> ->. by exists pre, post.
Qed.

Lemma Contains_app_blocked (a x q : bytes) :
  (∀ j, j < length a → HasPrefix (drop j (a ++ x)) q = false) →
  Contains x q = false → Contains (a ++ x) q = false.
Proof.
  intros Ha Hx. induction a as [|c a IH]; [done|].
  pose proof (Ha 0 ltac:(simpl; lia)) as H0. rewrite drop_0 in H0.
  cbn [app Contains] in *. rewrite H0. cbn [orb].
  apply IH. intros j Hj. apply (Ha (S j)). simpl; lia.
Qed.

Lemma inert_elem (ps : list (bytes * bytes)) (p v : bytes) :
  inert ps = true → (p, v) ∈ ps → inert_value ps.*1 v = true.
Proof.
  unfold inert. rewrite forallb_elem_of. intros H Hin. apply H.
  apply list_elem_of_fmap. by exists (p, v).
Qed.

Lemma inert_nonempty (ps : list (bytes * bytes)) (q : bytes) :
  inert ps = true → q ∈ ps.*1 → q ≠ [].
Proof.
  intros Hin Hq. destruct ps as [|[p v] ps0]; [by apply elem_of_nil in Hq|].
  apply inert_cons in Hin as [Hv _].
  apply inert_value_spec in Hv as (c&v'&_&Hv).
  by destruct (Hv q Hq) as [_ (d&q'&->&_)].
Qed.

(** A prefix read in the result of simultaneous substitution, when it
    holds the first byte of no value, was there before. *)
Lemma prefix_before_simultaneous (ps : list (bytes * bytes)) (t r : bytes) :
  inert ps = true →
  (∀ p c v', (p, c :: v') ∈ ps → c ∉ r) →
  HasPrefix (simultaneous ps t) r = true → HasPrefix t r = true.
Proof.
  intros Hin. revert r. induction t as [|b t IH]; intros r Hr Hp; [done|].
  destruct r as [|x r]; [done|].
  destruct (find (fun pv => HasPrefix (b :: t) pv.1) ps) as [[p v]|] eqn:Ef.
  - pose proof Ef as Ef0. apply find_some in Ef as [Hpv Hs].
    apply list_elem_of_In in Hpv. cbn [fst] in Hs.
    assert (Hne : p ≠ []) by (eapply inert_nonempty; [done|apply elem_of_fst; eauto]).
    apply HasPrefix_true in Hs as [t' Et]. rewrite Et in *.
    rewrite (simultaneous_match ps p v) in Hp by done.
    pose proof (inert_elem _ _ _ Hin Hpv) as Hv.
    apply inert_value_spec in Hv as (c&v'&->&_).
    cbn [app HasPrefix] in Hp. apply andb_true_iff in Hp as [Hx _].
    apply byte_eqb_eq in Hx as ->. exfalso.
    apply (Hr p c v' Hpv). by left.
  - rewrite simultaneous_copy in Hp.
    + cbn [HasPrefix] in *. apply andb_true_iff in Hp as [Hx Hp].
      rewrite Hx. cbn [andb]. apply IH; [|done].
      intros p c v' Hpv Hc. apply (Hr p c v' Hpv). by right.
    + intros pv Hpv. apply (find_none _ _ Ef). by apply list_elem_of_In.
Qed.

(** Simultaneous substitution with inert values leaves no occurrence of a
    pattern behind. *)
Lemma simultaneous_leaves_none (ps : list (bytes * bytes)) (q : bytes) (n : nat)
    (s : bytes) :
  inert ps = true → q ∈ ps.*1 → (length s ≤ n)%nat →
  Contains (simultaneous ps s) q = false.
Proof.
  intros Hin Hq. revert s. induction n as [|n IH]; intros s Hlen.
  { destruct s; [|simpl in Hlen; lia]. cbn.
    rewrite orb_false_r. apply HasPrefix_nil_r. by eapply inert_nonempty. }
  destruct s as [|b s].
  { cbn. rewrite orb_false_r. apply HasPrefix_nil_r. by eapply inert_nonempty. }
  assert (Hheads : ∀ p c v', (p, c :: v') ∈ ps → c ∉ q).
  { intros p c v' Hpv. pose proof (inert_elem _ _ _ Hin Hpv) as Hv.
    apply inert_value_spec in Hv as (c'&v''&Heq&Hv). injection Heq as <- <-.
    by destruct (Hv q Hq). }
  destruct (find (fun pv => HasPrefix (b :: s) pv.1) ps) as [[p v]|] eqn:Ef.
  - pose proof Ef as Ef0. apply find_some in Ef as [Hpv Hs].
    apply list_elem_of_In in Hpv. cbn [fst] in Hs.
    assert (Hne : p ≠ []) by (eapply inert_nonempty; [done|apply elem_of_fst; eauto]).
    apply HasPrefix_true in Hs as [r Er].
    pose proof (rest_shorter _ _ _ _ Er Hne Hlen) as Hr.
    rewrite Er in *. rewrite (simultaneous_match ps p v) by done.
    apply Contains_app_blocked; [|by apply IH].
    pose proof (inert_elem _ _ _ Hin Hpv) as Hv.
    apply inert_value_spec in Hv as (c&v'&->&Hv).
    intros j Hj. apply (value_blocks ps.*1); [|done|done].
    intros q' Hq'. by destruct (Hv q' Hq').
  - assert (Hnone : ∀ pv, pv ∈ ps → HasPrefix (b :: s) pv.1 = false).
    { intros pv Hpv. apply (find_none _ _ Ef). by apply list_elem_of_In. }
    rewrite simultaneous_copy by done. cbn [Contains].
    rewrite IH by (simpl in Hlen; lia). rewrite orb_false_r.
    destruct (HasPrefix (b :: simultaneous ps s) q) eqn:E; [|done].
    destruct q as [|x q]; [by eapply inert_nonempty in Hq|].
    cbn [HasPrefix] in E. apply andb_true_iff in E as [Hx E].
    apply prefix_before_simultaneous in E; [|done|].
    + apply elem_of_fst in Hq as [w Hq].
      specialize (Hnone _ Hq). cbn [fst HasPrefix] in Hnone.
      by rewrite Hx, E in Hnone.
    + intros p c v' Hpv Hc. apply (Hheads p c v' Hpv). by right.
Qed.

Lemma ReplaceInContent_simultaneous
    (vars : gmap string string) (order : list (string * string))
    (content : bytes) :
  range_order vars order →
  inert (passes (map_to_list vars)) = true →
  separated (passes (map_to_list vars)).*1 content = true →
  ReplaceInContent order content
  = simultaneous (passes (map_to_list vars)) content.
Proof.
  intros Ho Hin Hsep. rewrite ReplaceInContent_passes.
  rewrite <- (run_passes_perm (passes (map_to_list vars))).
  - by apply run_passes_simultaneous.
  - symmetry. by apply passes_perm.
  - apply passes_NoDup, NoDup_fst_map_to_list.
  - done.
  - done.
Qed.

Lemma placeholder_of_key (vars : gmap string string) (key : string) (p : bytes) :
  is_Some (vars !! key) → p ∈ placeholders key →
  p ∈ (passes (map_to_list vars)).*1.
Proof.
  intros [v Hv] Hp. rewrite passes_patterns. apply list_elem_of_bind.
  exists key. split; [done|]. apply list_elem_of_fmap. exists (key, v).
  split; [done|]. by apply elem_of_map_to_list.
Qed.

(** X2.  When the values are inert and the occurrences of the placeholders
    do not overlap, the output of [ReplaceInContent] holds no placeholder
    of any key, and substituting again, in any order, returns it
    unchanged. *)
Theorem substitution_leaves_no_placeholder
    (vars : gmap string string) (order order' : list (string * string))
    (content : bytes) :
  range_order vars order → range_order vars order' →
  inert (passes (map_to_list vars)) = true →
  separated (passes (map_to_list vars)).*1 content = true →
  fully_substituted vars (ReplaceInContent order content) ∧
  ReplaceInContent order' (ReplaceInContent order content)
  = ReplaceInContent order content.
Proof.
  intros Ho Ho' Hin Hsep.
  assert (Hfull : fully_substituted vars (ReplaceInContent order content)).
  { intros key Hkey p Hp. rewrite (ReplaceInContent_simultaneous vars) by done.
    apply (simultaneous_leaves_none _ _ (length content)); [done| |done].
    by eapply placeholder_of_key. }
  split; [done|]. apply ReplaceInContent_absent.
  intros [k v] Hkv p Hp. apply (Hfull k); [|done].
  rewrite (range_order_lookup _ _ _ _ Ho' Hkv). eauto.
Qed.

Lemma substitution_leaves_no_placeholder_witness :
  let content := to_bytes "Hello {{name}}! v%version% in __name__/<<x>>" in
  let order := map_to_list sample_variables in
  fully_substituted sample_variables (ReplaceInContent order content) ∧
  ReplaceInContent order (ReplaceInContent order content)
  = ReplaceInContent order content.
Proof.
  cbn zeta.
  apply (substitution_leaves_no_placeholder sample_variables);
    [apply range_order_canonical | apply range_order_canonical
    | vm_compute; reflexivity | vm_compute; reflexivity].
Defined.

(** * Further properties of extraction *)

Lemma strip_prefix_Some (lit s r : bytes) :
  strip_prefix lit s = Some r → s = lit ++ r.
Proof.
  revert s. induction lit as [|a lit IH]; intros s; cbn [strip_prefix].
  - by intros [= ->].
  - destruct s as [|b s]; [done|].
    destruct (Byte.eqb a b) eqn:E; [|done].
    apply byte_eqb_eq in E as ->. intros H. by rewrite (IH _ H).
Qed.

Lemma plus_greedy_Some (cls : byte → bool) (close s g rest : bytes) :
  plus_greedy cls close s = Some (g, rest) →
  s = g ++ close ++ rest ∧ g ≠ [] ∧ forallb cls g = true.
Proof.
  revert g rest. induction s as [|c s IH]; intros g rest; cbn [plus_greedy]; [done|].
  destruct (cls c) eqn:Ec; [|done].
  destruct (plus_greedy cls close s) as [[g' rest']|].
  - intros [= <- <-]. destruct (IH g' rest' eq_refl) as (->&_&Hall).
    repeat split; [done|]. cbn [forallb]. by rewrite Ec, Hall.
  - destruct (strip_prefix close s) as [r|] eqn:Es; [|done].
    intros [= <- <-]. apply strip_prefix_Some in Es as ->.
    repeat split; [done|]. cbn [forallb]. by rewrite Ec.
Qed.

Lemma match_here_Some (p : pattern) (s g rest : bytes) :
  match_here p s = Some (g, rest) →
  s = p_open p ++ g ++ p_close p ++ rest ∧ g ≠ [] ∧ forallb (p_class p) g = true.
Proof.
  unfold match_here. destruct (strip_prefix (p_open p) s) as [s'|] eqn:Es; [|done].
  apply strip_prefix_Some in Es as ->.
  intros (->&?&?)%plus_greedy_Some. done.
Qed.

Lemma find_all_sound (p : pattern) (k : nat) (s g : bytes) :
  g ∈ find_all p k s →
  (∃ pre post, s = pre ++ p_open p ++ g ++ p_close p ++ post) ∧
  g ≠ [] ∧ forallb (p_class p) g = true.
Proof.
  revert k. induction s as [|c s IH]; intros k; cbn [find_all].
  { by intros ?%elem_of_nil. }
  assert (Hrec : ∀ k', g ∈ find_all p k' s →
            (∃ pre post, c :: s = pre ++ p_open p ++ g ++ p_close p ++ post) ∧
            g ≠ [] ∧ forallb (p_class p) g = true).
  { intros k' Hg. destruct (IH k' Hg) as ((pre&post&->)&?&?).
    split; [|done]. by exists (c :: pre), post. }
  destruct k as [|k]; [|apply Hrec].
  destruct (match_here p (c :: s)) as [[g' rest]|] eqn:Em; [|apply Hrec].
  intros [->|Hg]%elem_of_cons; [|by eapply Hrec].
  destruct (match_here_Some _ _ _ _ Em) as (Heq&?&?).
  split; [|done]. by exists [], rest.
Qed.

Lemma extracted_spec (content : bytes) (name : string) :
  name ∈ extracted content →
  ∃ p m, p ∈ [pattern1; pattern2; pattern3; pattern4] ∧
         m ∈ FindAllSubmatch p content ∧ name = of_bytes m.
Proof.
  unfold extracted. cbn zeta. rewrite !add_matches_spec.
  intros [[[[[]%not_elem_of_empty|(m&?&?)]|(m&?&?)]|(m&?&?)]|(m&?&?)].
  - exists pattern1, m. split; [by left | done].
  - exists pattern2, m. split; [by right; left | done].
  - exists pattern3, m. split; [by right; right; left | done].
  - exists pattern4, m. split; [by right; right; right; left | done].
Qed.

Lemma wrapped_placeholder (p : pattern) (m : bytes) :
  p ∈ [pattern1; pattern2; pattern3; pattern4] →
  p_open p ++ m ++ p_close p ∈ placeholders (of_bytes m).
Proof.
  unfold placeholders. rewrite !elem_of_cons, elem_of_nil.
  rewrite !to_bytes_app, !to_of_bytes.
  intros [->|[->|[->|[->|[]]]]]; cbn [p_open p_close pattern1 pattern2 pattern3 pattern4];
    tauto.
Qed.

(** X3.  A name extraction returns, from a buffer or from a path, is not
    empty, and one of its four placeholders occurs in the buffer. *)
Theorem extracted_names_occur (content : bytes) (path name : string) :
  (name ∈ ExtractVariablesFromFile content →
     name ≠ "" ∧ ∃ p, p ∈ placeholders name ∧ Contains content p = true) ∧
  (name ∈ ExtractVariablesFromPath path →
     name ≠ "" ∧ ∃ p, p ∈ placeholders name ∧ Contains (to_bytes path) p = true).
Proof.
  assert (H : ∀ c, name ∈ elements (extracted c) →
            name ≠ "" ∧ ∃ p, p ∈ placeholders name ∧ Contains c p = true).
  { intros c Hn. apply elem_of_elements, extracted_spec in Hn as (p&m&Hp&Hm&->).
    apply find_all_sound in Hm as ((pre&post&Hc)&Hne&_). split.
    - intros E. apply Hne. by rewrite <- (to_of_bytes m), E.
    - exists (p_open p ++ m ++ p_close p). split; [by apply wrapped_placeholder|].
      apply Contains_true. exists pre, post. by rewrite <- !app_assoc. }
  split; apply H.
Qed.

(** X4.  The bytes of a name a scan returns are all in the class of its
    pattern: a name of the brace scan holds no closing brace, one of the
    angle scan no closing angle, and the names of the underscore and
    percent scans are made of letters, digits and underscores; none is
    empty. *)
Theorem scanned_names_in_class (p : pattern) (content m : bytes) :
  m ∈ FindAllSubmatch p content → m ≠ [] ∧ Forall (fun c => p_class p c = true) m.
Proof.
  intros Hm. apply find_all_sound in Hm as (_&Hne&Hall). split; [done|].
  apply Forall_forall. intros c Hc. by apply (proj1 (forallb_elem_of _ _) Hall).
Qed.

Lemma scanned_names_in_class_witness :
  to_bytes "project_name" ≠ [] ∧
  Forall (fun c => p_class pattern3 c = true) (to_bytes "project_name").
Proof.
  apply (scanned_names_in_class pattern3 (to_bytes "cmd/__project_name__/main.go")).
  vm_compute. by left.
Defined.

(** X5.  Substitute, then extract: when the values are inert and the
    occurrences of the placeholders do not overlap, no name extracted from
    the output of [ReplaceInContent] is a key of the variable set. *)
Theorem extract_after_substitution
    (vars : gmap string string) (order : list (string * string))
    (content : bytes) (name : string) :
  range_order vars order →
  inert (passes (map_to_list vars)) = true →
  separated (passes (map_to_list vars)).*1 content = true →
  name ∈ ExtractVariablesFromFile (ReplaceInContent order content) →
  vars !! name = None.
Proof.
  intros Ho Hin Hsep Hn. unfold ExtractVariablesFromFile in Hn.
  apply elem_of_elements, extracted_spec in Hn as (p&m&Hp&Hm&->).
  apply find_all_sound in Hm as ((pre&post&Hc)&_&_).
  destruct (vars !! of_bytes m) as [v|] eqn:Hv; [|done]. exfalso.
  assert (Hc' : Contains (ReplaceInContent order content)
                  (p_open p ++ m ++ p_close p) = true).
  { apply Contains_true. exists pre, post. by rewrite <- !app_assoc. }
  rewrite (ReplaceInContent_simultaneous vars) in Hc' by done.
  rewrite (simultaneous_leaves_none _ _ (length content)) in Hc'; [done|done| |done].
  apply (placeholder_of_key vars (of_bytes m)); [eauto|].
  by apply wrapped_placeholder.
Qed.

Lemma extract_after_substitution_witness :
  sample_variables !! "x" = None.
Proof.
  apply (extract_after_substitution sample_variables
           (map_to_list sample_variables)
           (to_bytes "Hello {{name}}! v%version% in __name__/<<x>>") "x").
  - apply range_order_canonical.
  - vm_compute; reflexivity.
  - vm_compute; reflexivity.
  - vm_compute. by left.
Defined.

(** * Further properties of the classifier and of the generator *)

(** X6.  [IsBinaryFile] reads no byte beyond the first 512: two files that
    open for reading and agree on their first 512 bytes are classified
    alike, whatever follows. *)
Theorem IsBinaryFile_first_512
    (fs fs' : filesystem) (p p' : fpath) (m m' : N) (data data' : bytes) :
  Open fs p = inr (File m data) → Open fs' p' = inr (File m' data') →
  take 512 data = take 512 data' →
  IsBinaryFile fs p = IsBinaryFile fs' p'.
Proof.
  intros Ho Ho' Ht. unfold IsBinaryFile. rewrite Ho, Ho'.
  destruct data as [|b data], data' as [|b' data']; try done.
  cbn [Read]. by rewrite Ht.
Qed.

Lemma IsBinaryFile_first_512_witness :
  IsBinaryFile (fsys sample_world) ["template"; "README.md"]
  = IsBinaryFile
      {| tree := {[ ["f"] := File 420 (to_bytes "Hello {{name}}!") ]}; umask := 0 |}
      ["f"].
Proof.
  apply (IsBinaryFile_first_512 _ _ _ _ 420 420 (to_bytes "Hello {{name}}!")
           (to_bytes "Hello {{name}}!")); vm_compute; reflexivity.
Defined.

Lemma string_length_app (a b : string) :
  String.length (a +:+ b) = String.length a + String.length b.
Proof.
  induction a as [|c a IH]; [done|].
  change (String c a +:+ b) with (String c (a +:+ b)). cbn [String.length].
  by rewrite IH.
Qed.

Lemma substring_0_length (n : nat) (s : string) :
  (n ≤ String.length s)%nat → String.length (String.substring 0 n s) = n.
Proof.
  revert s. induction n as [|n IH]; intros s Hn.
  - by destruct s.
  - destruct s as [|c s]; [simpl in Hn; lia|].
    cbn [String.substring String.length]. rewrite IH; [done|].
    simpl in Hn. lia.
Qed.

(** X7.  [truncateString] returns a short string as it is, and of a longer
    one its first [maxLen] characters followed by three dots: the result
    never has more than [maxLen + 3] characters. *)
Theorem truncateString_bound (s : string) (maxLen : nat) :
  (String.length (truncateString s maxLen) ≤ maxLen + 3)%nat ∧
  ((String.length s ≤ maxLen)%nat → truncateString s maxLen = s) ∧
  ((maxLen < String.length s)%nat →
     truncateString s maxLen = String.substring 0 maxLen s +:+ "..." ∧
     String.length (truncateString s maxLen) = maxLen + 3).
Proof.
  unfold truncateString.
  destruct (Nat.leb (String.length s) maxLen) eqn:E.
  - apply Nat.leb_le in E. split; [lia|]. split; [done | lia].
  - apply Nat.leb_gt in E.
    rewrite string_length_app, substring_0_length by lia. cbn [String.length].
    split; [lia|]. split; [lia | done].
Qed.

(** A relation between the states that the function handed to the walk
    keeps, the walk keeps. *)
Lemma walk_invariant (R : world → world → Prop) (walkFn : WalkFunc) :
  (∀ w, R w w) → (∀ w1 w2 w3, R w1 w2 → R w2 w3 → R w1 w3) →
  (∀ path info err w, R w (walkFn path info err w).1) →
  ∀ fuel path info w r,
    walk fuel walkFn path info w = Some r → R w r.1.
Proof.
  intros Hrefl Htrans Hfn.
  induction fuel as [|fuel IH]; intros path info w r Hr; [done|].
  cbn [walk] in Hr.
  destruct (negb (IsDir info)).
  { injection Hr as <-. apply Hfn. }
  destruct (readDir (fsys w) path info) as [e|names].
  { injection Hr as <-. apply Hfn. }
  pose proof (Hfn path (Some info) None w) as H1.
  destruct (walkFn path (Some info) None w) as [w1 [err1|]].
  { injection Hr as <-. done. }
  cbn [fst] in H1. apply (Htrans _ _ _ H1). clear H1.
  revert w1 Hr. induction names as [|name names IHn]; intros w1 Hr.
  { injection Hr as <-. apply Hrefl. }
  destruct (Lstat (fsys w1) (path ++ [name])) as [e|ent].
  - pose proof (Hfn (path ++ [name]) None (Some e) w1) as H2.
    destruct (walkFn (path ++ [name]) None (Some e) w1) as [w' [err|]].
    + injection Hr as <-. done.
    + apply (Htrans _ _ _ H2). by apply IHn.
  - destruct (walk fuel walkFn (path ++ [name]) (info_of ent) w1)
      as [[w' [err|]]|] eqn:Ew; [| |done].
    + injection Hr as <-. apply (IH _ _ _ _ Ew).
    + apply (Htrans _ w'); [apply (IH _ _ _ _ Ew) | by apply IHn].
Qed.

Lemma Generate_invariant (R : world → world → Prop)
    (g : Generator) (pick : orders) :
  (∀ w, R w w) → (∀ w1 w2 w3, R w1 w2 → R w2 w3 → R w1 w3) →
  (∀ path info err w, R w (generate_entry g pick path info err w).1) →
  (∀ w fs', MkdirAll (fsys w) (path_of (OutputDir (cfg g))) perm_0755 = inr fs' →
            R w (set_fsys w fs')) →
  ∀ fuel w w' e, Generate g pick fuel w = Some (w', e) → R w w'.
Proof.
  intros Hrefl Htrans Hfn Hmk fuel w w' e. unfold Generate.
  destruct (IsNotExist _); [intros [= <- _]; apply Hrefl|].
  destruct (MkdirAll _ _ _) as [err|fs'] eqn:Emk; [intros [= <- _]; apply Hrefl|].
  intros Hw. apply (Htrans _ _ _ (Hmk _ _ Emk)). unfold Walk in Hw.
  destruct (Lstat _ _) as [err|ent].
  - unfold generate_entry in Hw. injection Hw as <- _. apply Hrefl.
  - apply (walk_invariant R) in Hw; done.
Qed.

(** ** A real run prints nothing *)

Lemma copyFile_stdout (source destination : fpath) (w : world) :
  stdout (copyFile source destination w).1 = stdout w.
Proof.
  unfold copyFile. destruct (Open _ _); [done|].
  destruct (OpenFile_trunc _ _ _); [done|].
  destruct (Lstat _ _) as [|now]; [done|]. by destruct (ReadAll now).
Qed.

Lemma generate_entry_quiet (g : Generator) (pick : orders) path info err w :
  DryRun (cfg g) = false →
  stdout (generate_entry g pick path info err w).1 = stdout w.
Proof.
  intros Hdry. unfold generate_entry.
  destruct err as [e|]; [done|]. destruct info as [info|]; [|done].
  destruct (String.eqb _ "."); [done|]. cbn zeta.
  destruct (IsDir info); rewrite ?Hdry.
  { by destruct (MkdirAll _ _ _). }
  unfold processFile. rewrite Hdry. cbn [fsys next_call].
  destruct (Open (fsys w) path) as [e|src]; [done|].
  destruct (IsBinaryFile (fsys w) path).
  - destruct (MkdirAll _ _ _); [done|]. by rewrite copyFile_stdout.
  - destruct (ReadAll src); [done|].
    destruct (MkdirAll _ _ _); [done|]. by destruct (OpenFile_trunc _ _ _).
Qed.

(** X8.  A run that is not a dry run prints none of the report lines:
    what was printed before is all there is afterwards, whether the run
    succeeds or fails. *)
Theorem real_run_prints_nothing
    (g : Generator) (pick : orders) (fuel : nat) (w w' : world)
    (e : option error) :
  DryRun (cfg g) = false →
  Generate g pick fuel w = Some (w', e) → stdout w' = stdout w.
Proof.
  intros Hdry Hg.
  apply (Generate_invariant (fun w1 w2 => stdout w2 = stdout w1) g pick)
    with (fuel := fuel) (e := e); try done.
  - intros w1 w2 w3 H1 H2. by rewrite H2.
  - intros. by apply generate_entry_quiet.
Qed.

Lemma real_run_prints_nothing_witness :
  ∃ w', Generate (NewGenerator (sample_config all_formats false))
          sample_orders 5 sample_world = Some (w', None) ∧ stdout w' = [].
Proof.
  eexists. split; [vm_compute; reflexivity|].
  apply (real_run_prints_nothing
           (NewGenerator (sample_config all_formats false)) sample_orders 5
           sample_world _ None); [done | vm_compute; reflexivity].
Defined.

Lemma truncateString_length (s : string) (maxLen : nat) :
  (String.length (truncateString s maxLen) ≤ maxLen + 3)%nat.
Proof.
  unfold truncateString.
  destruct (Nat.leb (String.length s) maxLen) eqn:E.
  - apply Nat.leb_le in E. lia.
  - apply Nat.leb_gt in E.
    rewrite string_length_app, substring_0_length by lia. cbn [String.length]. lia.
Qed.

(** ** The previews of a dry run *)

Lemma generate_entry_previews (g : Generator) (pick : orders) path info err w
    (P : report → Prop) :
  (∀ r, (∀ s, r ≠ ContentPreview s) → P r) →
  (∀ s, (String.length s ≤ 203)%nat → P (ContentPreview s)) →
  Forall P (stdout w) →
  Forall P (stdout (generate_entry g pick path info err w).1).
Proof.
  intros Hother Hprev Hw. unfold generate_entry.
  destruct err as [e|]; [done|]. destruct info as [info|]; [|done].
  destruct (String.eqb _ "."); [done|]. cbn zeta.
  destruct (IsDir info).
  { destruct (DryRun (cfg g)).
    - cbn [fst print stdout next_call]. apply Forall_app. split; [done|].
      apply Forall_singleton. by apply Hother.
    - by destruct (MkdirAll _ _ _). }
  unfold processFile. cbn [fsys next_call].
  destruct (Open (fsys w) path) as [e|src]; [done|].
  destruct (IsBinaryFile (fsys w) path).
  - destruct (DryRun (cfg g)).
    + cbn [fst print stdout]. apply Forall_app. split; [done|].
      apply Forall_singleton. by apply Hother.
    + destruct (MkdirAll _ _ _); [done|]. by rewrite copyFile_stdout.
  - destruct (ReadAll src); [done|].
    destruct (DryRun (cfg g)).
    + cbn [fst print stdout]. rewrite !Forall_app, !Forall_singleton.
      split; [split; [done | by apply Hother]|].
      apply Hprev. apply truncateString_length.
    + destruct (MkdirAll _ _ _); [done|]. by destruct (OpenFile_trunc _ _ _).
Qed.

(** X9.  In the reports of a run every content preview has at most 203
    characters (200 and the three dots), if those printed before had. *)
Theorem previews_are_bounded
    (g : Generator) (pick : orders) (fuel : nat) (w w' : world)
    (e : option error) :
  Generate g pick fuel w = Some (w', e) →
  (∀ s, ContentPreview s ∈ stdout w → (String.length s ≤ 203)%nat) →
  ∀ s, ContentPreview s ∈ stdout w' → (String.length s ≤ 203)%nat.
Proof.
  intros Hg Hw.
  pose (P := fun r => ∀ s, r = ContentPreview s → (String.length s ≤ 203)%nat).
  assert (H : Forall P (stdout w) → Forall P (stdout w')).
  { apply (Generate_invariant
             (fun w1 w2 => Forall P (stdout w1) → Forall P (stdout w2)) g pick)
      with (fuel := fuel) (e := e); try done.
    - auto.
    - intros path info err w1 H1. apply generate_entry_previews; [| |done].
      + intros r Hr s ->. by destruct (Hr s).
      + intros s Hs s' [= <-]. done. }
  intros s Hs.
  assert (H0 : Forall P (stdout w)).
  { apply Forall_forall. intros r Hr s' ->. by apply Hw. }
  apply H in H0. rewrite Forall_forall in H0. by apply (H0 _ Hs).
Qed.

Lemma previews_are_bounded_witness :
  ∃ w', Generate (NewGenerator (sample_config all_formats true))
          sample_orders 5 sample_world = Some (w', None) ∧
        ∀ s, ContentPreview s ∈ stdout w' → (String.length s ≤ 203)%nat.
Proof.
  eexists. split; [vm_compute; reflexivity|].
  apply (previews_are_bounded
           (NewGenerator (sample_config all_formats true)) sample_orders 5
           sample_world _ None); [vm_compute; reflexivity|].
  intros s Hs. by apply elem_of_nil in Hs.
Defined.

(** ** What [Generate] leaves in place *)

Lemma keeps_entries_refl (fs : filesystem) : keeps_entries fs fs.
Proof. intros p. destruct (tree fs !! p) as [[m d|m]|]; eauto. Qed.

Lemma keeps_entries_trans (fs1 fs2 fs3 : filesystem) :
  keeps_entries fs1 fs2 → keeps_entries fs2 fs3 → keeps_entries fs1 fs3.
Proof.
  intros H1 H2 p. specialize (H1 p). specialize (H2 p).
  destruct (tree fs1 !! p) as [[m d|m]|]; [| |done].
  - destruct H1 as [d' H1]. by rewrite H1 in H2.
  - by rewrite H1 in H2.
Qed.

Lemma keeps_entries_insert_new (fs : filesystem) (p : fpath) (e : entry) :
  tree fs !! p = None → keeps_entries fs (with_tree fs (<[p := e]> (tree fs))).
Proof.
  intros Hp q. destruct (tree fs !! q) as [[m d|m]|] eqn:Hq; [| |done];
    cbn [tree with_tree]; rewrite lookup_insert_ne by congruence; eauto.
Qed.

Lemma keeps_entries_rewrite (fs : filesystem) (p : fpath) (m : N)
    (data data' : bytes) :
  tree fs !! p = Some (File m data) →
  keeps_entries fs (with_tree fs (<[p := File m data']> (tree fs))).
Proof.
  intros Hp q. destruct (decide (p = q)) as [<-|Hne].
  - rewrite Hp. cbn [tree with_tree]. rewrite lookup_insert_eq. eauto.
  - destruct (tree fs !! q) as [[m' d|m']|] eqn:Hq; [| |done];
      cbn [tree with_tree]; rewrite lookup_insert_ne by done; eauto.
Qed.

Lemma mkdir_from_keeps (perm : N) (rest cur : fpath) (fs fs' : filesystem) :
  mkdir_from fs perm cur rest = inr fs' → keeps_entries fs fs'.
Proof.
  revert cur fs. induction rest as [|n rest IH]; intros cur fs; cbn [mkdir_from].
  - intros [= <-]. apply keeps_entries_refl.
  - destruct (tree fs !! (cur ++ [n])) as [[m d|m]|] eqn:E; [done|apply IH|].
    intros H. eapply keeps_entries_trans; [|by eapply IH].
    by apply keeps_entries_insert_new.
Qed.

Lemma OpenFile_trunc_keeps (fs fs' : filesystem) (path : fpath) (perm : N) :
  OpenFile_trunc fs path perm = inr fs' → keeps_entries fs fs'.
Proof.
  unfold OpenFile_trunc. destruct path as [|n path]; [done|].
  destruct (Lstat fs _) as [e|[m d|m]]; [done..|].
  destruct (tree fs !! (n :: path)) as [[m' d|m']|] eqn:E; [|done|].
  - destruct (owner_write m'); [|done]. intros [= <-].
    by eapply keeps_entries_rewrite.
  - intros [= <-]. by apply keeps_entries_insert_new.
Qed.

Lemma Write_keeps (fs : filesystem) (path : fpath) (data : bytes) :
  keeps_entries fs (Write fs path data).
Proof.
  unfold Write. destruct (tree fs !! path) as [[m d|m]|] eqn:E;
    [by eapply keeps_entries_rewrite | apply keeps_entries_refl..].
Qed.

Lemma copyFile_keeps (source destination : fpath) (w : world) :
  keeps_entries (fsys w) (fsys (copyFile source destination w).1).
Proof.
  unfold copyFile. destruct (Open _ _); [apply keeps_entries_refl|].
  destruct (OpenFile_trunc _ _ _) as [|fs'] eqn:Eo; [apply keeps_entries_refl|].
  apply OpenFile_trunc_keeps in Eo.
  destruct (Lstat fs' source) as [|now]; [done|].
  destruct (ReadAll now); [done|]. cbn [fst fsys set_fsys].
  eapply keeps_entries_trans; [done | apply Write_keeps].
Qed.

Lemma generate_entry_keeps (g : Generator) (pick : orders) path info err w :
  keeps_entries (fsys w) (fsys (generate_entry g pick path info err w).1).
Proof.
  unfold generate_entry.
  destruct err as [e|]; [apply keeps_entries_refl|].
  destruct info as [info|]; [|apply keeps_entries_refl].
  destruct (String.eqb _ "."); [apply keeps_entries_refl|]. cbn zeta.
  destruct (IsDir info).
  { destruct (DryRun (cfg g)); [apply keeps_entries_refl|].
    destruct (MkdirAll _ _ _) eqn:Em; [apply keeps_entries_refl|].
    by apply mkdir_from_keeps in Em. }
  unfold processFile. cbn [fsys next_call].
  destruct (Open (fsys w) path) as [e|src]; [apply keeps_entries_refl|].
  destruct (IsBinaryFile (fsys w) path).
  - destruct (DryRun (cfg g)); [apply keeps_entries_refl|].
    destruct (MkdirAll _ _ _) as [|fs1] eqn:Em; [apply keeps_entries_refl|].
    apply mkdir_from_keeps in Em.
    eapply keeps_entries_trans; [done|].
    apply (copyFile_keeps path _ (set_fsys (next_call w) fs1)).
  - destruct (ReadAll src); [apply keeps_entries_refl|].
    destruct (DryRun (cfg g)); [apply keeps_entries_refl|].
    destruct (MkdirAll _ _ _) as [|fs1] eqn:Em; [apply keeps_entries_refl|].
    apply mkdir_from_keeps in Em.
    destruct (OpenFile_trunc fs1 _ _) as [|fs2] eqn:Eo; [done|].
    apply OpenFile_trunc_keeps in Eo. cbn [fst fsys set_fsys].
    eapply keeps_entries_trans; [done|].
    eapply keeps_entries_trans; [done | apply Write_keeps].
Qed.

(** X10.  [Generate] removes nothing and changes no mode: a directory that
    was there is the same directory afterwards, and a file that was there
    is a file with the same mode afterwards (its bytes may have been
    rewritten), whether the run succeeds or fails. *)
Theorem Generate_keeps_entries
    (g : Generator) (pick : orders) (fuel : nat) (w w' : world)
    (e : option error) :
  Generate g pick fuel w = Some (w', e) → keeps_entries (fsys w) (fsys w').
Proof.
  apply (Generate_invariant
           (fun w1 w2 => keeps_entries (fsys w1) (fsys w2)) g pick).
  - intros. apply keeps_entries_refl.
  - intros w1 w2 w3. apply keeps_entries_trans.
  - intros. apply generate_entry_keeps.
  - intros w0 fs' Hm. by apply mkdir_from_keeps in Hm.
Qed.

Lemma Generate_keeps_entries_witness :
  ∃ w', Generate (NewGenerator (sample_config all_formats false))
          sample_orders 5 sample_world = Some (w', None) ∧
        keeps_entries (fsys sample_world) (fsys w').
Proof.
  eexists. split; [vm_compute; reflexivity|].
  apply (Generate_keeps_entries
           (NewGenerator (sample_config all_formats false)) sample_orders 5
           sample_world _ None). vm_compute; reflexivity.
Defined.

(** ** The output root *)

Lemma node_at_snoc (t : gmap (list string) entry) (cur : fpath) (n : string) :
  node_at t (cur ++ [n]) = t !! (cur ++ [n]).
Proof. by destruct cur. Qed.

(** [os.MkdirAll] on a path that exists: nothing is made. *)
Lemma mkdir_from_existing (fs : filesystem) (perm : N) (rest cur : fpath)
    (n : string) (e : entry) :
  lookup_from (tree fs) (cur ++ [n]) rest = inr e →
  mkdir_from fs perm cur (n :: rest)
  = match e with Dir _ => inr fs | File _ _ => inl ENOTDIR end.
Proof.
  revert cur n. induction rest as [|n' rest IH]; intros cur n;
    cbn [lookup_from mkdir_from]; rewrite node_at_snoc.
  - destruct (tree fs !! (cur ++ [n])) as [[m d|m]|]; [| |done];
      by intros [= <-].
  - destruct (tree fs !! (cur ++ [n])) as [[m d|m]|]; [done| |done].
    intros H. by apply IH.
Qed.

Lemma MkdirAll_existing (fs : filesystem) (path : fpath) (perm : N) (e : entry) :
  Lstat fs path = inr e →
  MkdirAll fs path perm
  = match e with Dir _ => inr fs | File _ _ => inl ENOTDIR end.
Proof.
  unfold Lstat, MkdirAll. destruct path as [|n path].
  - cbn. by intros [= <-].
  - intros H. by apply (mkdir_from_existing fs perm path [] n).
Qed.

(** X11.  When the template path exists and the output root is a regular
    file, [Generate] fails with the error of the output directory and
    leaves the state as it was. *)
Theorem output_root_is_a_file
    (g : Generator) (pick : orders) (fuel : nat) (w : world) (m : N)
    (data : bytes) :
  IsNotExist (Stat (fsys w) (path_of (TemplateDir (cfg g)))) = false →
  Lstat (fsys w) (path_of (OutputDir (cfg g))) = inr (File m data) →
  Generate g pick fuel w = Some (w, Some (OutputDirFailed ENOTDIR)).
Proof.
  intros Ht Ho. unfold Generate. rewrite Ht.
  by rewrite (MkdirAll_existing _ _ _ _ Ho).
Qed.

Lemma output_root_is_a_file_witness :
  let g := {| cfg := {| TemplateDir := "template"; OutputDir := "template/README.md";
                        Variables := ∅; Interactive := false; DryRun := false;
                        SkipConfirm := false; Formats := all_formats |};
              replacer := NewReplacer ∅ |} in
  Generate g sample_orders 5 sample_world
  = Some (sample_world, Some (OutputDirFailed ENOTDIR)).
Proof.
  cbn zeta.
  eapply (output_root_is_a_file _ sample_orders 5 sample_world);
    vm_compute; reflexivity.
Defined.

(** X12.  A dry run with the output root already a directory changes
    nothing in the file system. *)
Theorem dry_run_with_output_root_is_pure
    (g : Generator) (pick : orders) (fuel : nat) (w w' : world)
    (e : option error) (m : N) :
  DryRun (cfg g) = true →
  Lstat (fsys w) (path_of (OutputDir (cfg g))) = inr (Dir m) →
  Generate g pick fuel w = Some (w', e) → fsys w' = fsys w.
Proof.
  intros Hdry Ho Hg.
  destruct (dry_run_only_makes_output_root _ _ _ _ _ _ Hdry Hg) as [?|Hm]; [done|].
  rewrite (MkdirAll_existing _ _ _ _ Ho) in Hm. by injection Hm as ->.
Qed.

Lemma dry_run_with_output_root_is_pure_witness :
  let g := NewGenerator
             {| TemplateDir := "template"; OutputDir := "template/sub";
                Variables := sample_variables; Interactive := false;
                DryRun := true; SkipConfirm := false; Formats := all_formats |} in
  ∃ w', Generate g sample_orders 5 sample_world = Some (w', None) ∧
        fsys w' = fsys sample_world.
Proof.
  intros g. eexists. split; [vm_compute; reflexivity|].
  apply (dry_run_with_output_root_is_pure g sample_orders 5 sample_world _ None 448);
    [done | vm_compute; reflexivity | vm_compute; reflexivity].
Defined.

(** * Properties of [ExtractVariables] *)

(** The walk of [Generate] is the walk over a state, read at its file
    system. *)
Lemma walk_is_walk_in (fuel : nat) (walkFn : WalkFunc) (path : fpath)
    (info : FileInfo) (w : world) :
  walk fuel walkFn path info w = walk_in fsys fuel walkFn path info w.
Proof.
  revert path info w. induction fuel as [|fuel IH]; intros path info w; [done|].
  cbn [walk walk_in]. destruct (negb (IsDir info)); [done|].
  destruct (readDir (fsys w) path info) as [e|names]; [done|].
  destruct (walkFn path (Some info) None w) as [w1 [err1|]]; [done|].
  revert w1. induction names as [|name names IHn]; intros w1; [done|].
  destruct (Lstat (fsys w1) (path ++ [name])) as [e|ent].
  - destruct (walkFn (path ++ [name]) None (Some e) w1) as [w' [err|]]; [done|].
    apply IHn.
  - rewrite IH.
    destruct (walk_in fsys fuel walkFn (path ++ [name]) (info_of ent) w1)
      as [[w' [err|]]|]; [done| |done].
    apply IHn.
Qed.






(** * Properties of the prompter *)

Lemma cut_line_count (s : string) :
  match cut_line s with
  | Some (line, rest) => count_lines s = S (count_lines rest)
  | None => count_lines s = 0
  end.
Proof.
  induction s as [|c s IH]; [done|]. cbn [cut_line count_lines].
  destruct (Ascii.eqb c newline); [done|].
  destruct (cut_line s) as [[line rest]|]; done.
Qed.

Section prompter_facts.
Variable TrimSpace : string → string.

Lemma prompt_values_lines (variables : gmap string string) (n : nat)
    (varKeys : list string) (i : nat) (result : gmap string string)
    (con : console) :
  match prompt_values TrimSpace variables n i varKeys result con with
  | (inr _, con') =>
      (length varKeys ≤ count_lines (stdin con))%nat ∧
      count_lines (stdin con') = count_lines (stdin con) - length varKeys
  | (inl err, _) =>
      err = ReadInputFailed ∧ (count_lines (stdin con) < length varKeys)%nat
  end.
Proof.
  revert i result con. induction varKeys as [|key varKeys IH]; intros i result con.
  { cbn. split; lia. }
  cbn [prompt_values]. cbn zeta. unfold ReadString.
  set (con1 := show con _). change (stdin con1) with (stdin con).
  pose proof (cut_line_count (stdin con)) as Hc.
  destruct (cut_line (stdin con)) as [[line rest]|].
  - match goal with |- context [prompt_values _ _ _ ?i' _ ?r ?c] =>
      specialize (IH i' r c) end.
    destruct (prompt_values _ _ _ _ _ _ _) as [[err|res] con'];
      cbn [stdin length] in *; destruct IH; split; (done || lia).
  - cbn [length]. split; [done | lia].
Qed.



(** X15.  [PromptForValues] succeeds exactly when the input holds at least
    as many newlines as there are variables, and then it uses up one line
    for each; otherwise it fails with the read error, and returns no
    map. *)
Theorem PromptForValues_needs_lines
    (order : list (string * string)) (variables : gmap string string)
    (con : console) :
  match PromptForValues TrimSpace order variables con with
  | (inr _, con') =>
      (length order ≤ count_lines (stdin con))%nat ∧
      count_lines (stdin con') = count_lines (stdin con) - length order
  | (inl err, _) =>
      err = ReadInputFailed ∧ (count_lines (stdin con) < length order)%nat
  end.
Proof.
  unfold PromptForValues. cbn zeta. rewrite length_fmap.
  match goal with |- context [prompt_values _ ?v ?n ?i ?k ?r ?c] =>
    pose proof (prompt_values_lines v n k i r c) as H end.
  rewrite length_fmap in H. cbn [stdin show] in H. exact H.
Qed.

End prompter_facts.


(** X16.  An index [PromptForChoice] returns without error is not
    negative, and it is below the number of choices unless it is the
    default index, which is returned as it was given. *)
Theorem PromptForChoice_index
    (TrimSpace : string → string) (Atoi : string → option Z)
    (message : string) (choices : list string) (defaultIndex i : Z)
    (con con' : console) :
  PromptForChoice TrimSpace Atoi message choices defaultIndex con = (inr i, con') →
  (0 ≤ i)%Z ∧ ((i < Z.of_nat (length choices))%Z ∨ i = defaultIndex).
Proof.
  unfold PromptForChoice. cbn zeta.
  destruct (ReadString _) as [[input|] con1]; [|done].
  destruct (String.eqb (TrimSpace input) "" && (0 <=? defaultIndex)%Z) eqn:E.
  - intros [= <- _]. apply andb_true_iff in E as [_ E%Z.leb_le]. auto.
  - destruct (Atoi (TrimSpace input)) as [choice|]; [|done].
    destruct ((choice <? 1)%Z || (Z.of_nat (length choices) <? choice)%Z) eqn:Er;
      [done|].
    intros [= <- _]. apply orb_false_iff in Er as [E1%Z.ltb_ge E2%Z.ltb_ge]. lia.
Qed.

Lemma PromptForChoice_index_witness :
  (0 ≤ 2)%Z ∧ ((2 < Z.of_nat (length ["go"; "rust"; "python"]))%Z ∨ 2%Z = 0%Z).
Proof.
  eapply (PromptForChoice_index sample_trim (fun _ => Some 3%Z) "Language"
            ["go"; "rust"; "python"] 0 2 {| stdin := "3" +:+ nl; shown := [] |}).
  vm_compute. reflexivity.
Defined.

(** * Properties of the command line *)

Lemma cut_at_app (sep : ascii) (key value : string) :
  cut_at sep key = None →
  cut_at sep (key +:+ String sep value) = Some (key, value).
Proof.
  induction key as [|c key IH]; intros Hk.
  - change ("" +:+ String sep value) with (String sep value).
    cbn [cut_at]. by rewrite Ascii.eqb_refl.
  - change (String c key +:+ String sep value)
      with (String c (key +:+ String sep value)).
    cbn [cut_at] in *. destruct (Ascii.eqb c sep); [done|].
    destruct (cut_at sep key) as [[]|]; [done|]. by rewrite IH.
Qed.

Section command_line_facts.
Variable TrimSpace : string → string.

Lemma foldl_assign_other (parts : list string) (vars : gmap string string)
    (k : string) :
  (∀ part key value, part ∈ parts →
     cut_at "="%char part = Some (key, value) → TrimSpace key ≠ k) →
  foldl (assign TrimSpace) vars parts !! k = vars !! k.
Proof.
  revert vars. induction parts as [|part parts IH]; intros vars Hno; [done|].
  cbn [foldl]. rewrite IH.
  - unfold assign. destruct (cut_at "="%char part) as [[key value]|] eqn:E; [|done].
    apply lookup_insert_ne. apply (Hno part key value); [by left | done].
  - intros part' key value Hin. apply Hno. by right.
Qed.

(** X17.  The [-v] flag, when it is not empty, is merged into the variables
    of the configuration: a name that no part of the flag assigns keeps
    the value of the configuration, and a part [key=value] gives the
    trimmed key the trimmed value (which may hold [=]) unless a later part
    assigns the same name; parts without [=] are skipped. *)
Theorem flag_variables_merge (c : Config) (f : flags) :
  variables_flag f ≠ "" →
  (∀ k,
     (∀ part key value, part ∈ Split ","%char (variables_flag f) →
        cut_at "="%char part = Some (key, value) → TrimSpace key ≠ k) →
     Variables (apply_flags TrimSpace c f) !! k = Variables c !! k) ∧
  (∀ pre post key value,
     Split ","%char (variables_flag f) = pre ++ (key +:+ "=" +:+ value) :: post →
     cut_at "="%char key = None →
     (∀ part key' value', part ∈ post →
        cut_at "="%char part = Some (key', value') →
        TrimSpace key' ≠ TrimSpace key) →
     Variables (apply_flags TrimSpace c f) !! TrimSpace key
     = Some (TrimSpace value)).
Proof.
  intros Hne. unfold apply_flags. cbn [Variables].
  apply String.eqb_neq in Hne. rewrite Hne. cbn [negb]. split.
  - intros k Hno. by apply foldl_assign_other.
  - intros pre post key value -> Hkey Hlater.
    rewrite foldl_app. cbn [foldl]. rewrite foldl_assign_other by done.
    unfold assign at 1.
    change ("=" +:+ value) with (String "="%char value).
    rewrite (cut_at_app _ _ _ Hkey).
    apply lookup_insert_eq.
Qed.

End command_line_facts.

Lemma flag_variables_merge_witness :
  let c := sample_config all_formats false in
  let f := {| templateDir := ""; outputDir := "";
              variables_flag := "author=x, name = A=B ,junk";
              interactiveMode := false; dryRun := false; skipConfirm := false |} in
  Variables (apply_flags sample_trim c f) !! "version" = Some "1.0" ∧
  Variables (apply_flags sample_trim c f) !! "name" = Some "A=B".
Proof.
  intros c f.
  destruct (flag_variables_merge sample_trim c f) as [H1 H2]; [done|].
  split.
  - rewrite H1; [done|].
    intros part key value Hin Hcut.
    assert (E : Split ","%char (variables_flag f)
                = ["author=x"; " name = A=B "; "junk"]) by (vm_compute; reflexivity).
    rewrite E in Hin. rewrite !elem_of_cons, elem_of_nil in Hin.
    destruct Hin as [->|[->|[->|[]]]]; vm_compute in Hcut;
      [injection Hcut as <- _|injection Hcut as <- _|discriminate Hcut];
      vm_compute; discriminate.
  - apply (H2 ["author=x"] ["junk"] " name " " A=B "); [done..|].
    intros part key' value' ->%list_elem_of_singleton Hcut.
    vm_compute in Hcut. discriminate Hcut.
Defined.

(** * What a real run writes *)

Lemma mkdir_from_umask (perm : N) (rest cur : fpath) (fs fs' : filesystem) :
  mkdir_from fs perm cur rest = inr fs' → umask fs' = umask fs.
Proof.
  revert cur fs. induction rest as [|n rest IH]; intros cur fs; cbn [mkdir_from].
  - by intros [= <-].
  - destruct (tree fs !! (cur ++ [n])) as [[m d|m]|]; [done|apply IH|].
    intros H. by apply IH in H.
Qed.

Lemma mkdir_from_longer (perm : N) (rest cur : fpath) (fs fs' : filesystem)
    (p : fpath) :
  mkdir_from fs perm cur rest = inr fs' →
  length cur + length rest < length p → tree fs' !! p = tree fs !! p.
Proof.
  revert cur fs. induction rest as [|n rest IH]; intros cur fs; cbn [mkdir_from].
  - by intros [= <-].
  - intros H Hlen. cbn [length] in Hlen.
    assert (Hl : length (cur ++ [n]) + length rest < length p)
      by (rewrite length_app; simpl; lia).
    destruct (tree fs !! (cur ++ [n])) as [[m d|m]|]; [done|by eapply IH|].
    rewrite (IH _ _ H Hl). cbn [tree with_tree].
    apply lookup_insert_ne. intros <-. rewrite length_app in Hlen. simpl in Hlen. lia.
Qed.

Lemma mkdir_from_made (perm : N) (rest cur : fpath) (n : string)
    (fs fs' : filesystem) :
  mkdir_from fs perm cur (rest ++ [n]) = inr fs' →
  tree fs !! (cur ++ rest ++ [n]) = None →
  tree fs' !! (cur ++ rest ++ [n]) = Some (Dir (created_mode fs perm)).
Proof.
  revert cur fs. induction rest as [|n' rest IH]; intros cur fs.
  - cbn [app mkdir_from]. intros H Hnone. rewrite Hnone in H.
    injection H as <-. cbn [tree with_tree]. apply lookup_insert_eq.
  - cbn [app mkdir_from]. intros H Hnone.
    replace (cur ++ n' :: rest ++ [n]) with ((cur ++ [n']) ++ rest ++ [n]) in *
      by (by rewrite <- app_assoc).
    destruct (tree fs !! (cur ++ [n'])) as [[m d|m]|] eqn:E; [done|by apply IH|].
    apply IH in H.
    + rewrite H. done.
    + cbn [tree with_tree]. rewrite lookup_insert_ne; [done|].
      intros Heq. apply (f_equal length) in Heq. rewrite !length_app in Heq.
      simpl in Heq. lia.
Qed.

Lemma length_Dir_of (p : fpath) : p ≠ [] → length (Dir_of p) < length p.
Proof.
  unfold Dir_of. induction p as [|a [|b p] IH]; intros Hp; [done|simpl; lia|].
  cbn [removelast length] in *. specialize (IH ltac:(done)). lia.
Qed.

(** X18.  In a run that is not a dry run, a text file that [processFile]
    writes where nothing was holds the substituted content of its source
    and has the mode handed over with the entry, less the umask. *)
Theorem processFile_writes_text
    (g : Generator) (pick : orders) (sourcePath targetPath : fpath)
    (info : FileInfo) (w w' : world) (m : N) (content : bytes) :
  DryRun (cfg g) = false →
  Open (fsys w) sourcePath = inr (File m content) →
  IsBinaryFile (fsys w) sourcePath = false →
  tree (fsys w) !! targetPath = None →
  processFile g pick sourcePath targetPath info w = (w', None) →
  tree (fsys w') !! targetPath
  = Some (File (created_mode (fsys w) (Mode info))
               (ReplaceInContent (pick (calls w)) content)).
Proof.
  intros Hdry Ho Hb Hnone. unfold processFile. rewrite Ho, Hb, Hdry.
  cbn [ReadAll fsys next_call].
  destruct (MkdirAll (fsys w) (Dir_of targetPath) perm_0755) as [e|fs1] eqn:Em;
    [done|].
  destruct (OpenFile_trunc fs1 targetPath (Mode info)) as [e|fs2] eqn:Eo; [done|].
  intros [= <-]. cbn [fsys set_fsys].
  assert (Htp : targetPath ≠ []) by (by intros ->).
  assert (Hn1 : tree fs1 !! targetPath = None).
  { rewrite (mkdir_from_longer _ _ _ _ _ targetPath Em); [done|].
    simpl. by apply length_Dir_of. }
  destruct (OpenFile_trunc_new _ _ _ _ Eo Hn1) as [Ht Hu].
  unfold Write. rewrite Ht, lookup_insert_eq. cbn [tree with_tree].
  rewrite lookup_insert_eq. unfold created_mode.
  by rewrite (mkdir_from_umask _ _ _ _ _ Em).
Qed.

Lemma processFile_writes_text_witness :
  ∃ w', tree (fsys w') !! ["output"; "README.md"]
        = Some (File (created_mode (fsys sample_world) 420)
                     (ReplaceInContent (sample_orders 0)
                        (to_bytes "Hello {{name}}!"))).
Proof.
  eexists.
  eapply (processFile_writes_text
            (NewGenerator (sample_config all_formats false)) sample_orders
            ["template"; "README.md"] ["output"; "README.md"]
            {| IsDir := false; Mode := 420 |} sample_world _ 420);
    vm_compute; reflexivity.
Defined.

(** X19.  In a run that is not a dry run, a directory entry whose
    destination does not exist yet is made with the mode of the template
    directory, less the umask. *)
Theorem generate_entry_makes_directory
    (g : Generator) (pick : orders) (path : fpath) (info : FileInfo)
    (w w' : world) :
  DryRun (cfg g) = false → IsDir info = true →
  let relPath := Rel (path_of (TemplateDir (cfg g))) path in
  let targetPath :=
    Join (path_of (OutputDir (cfg g))) (ReplaceInPath (pick (calls w)) relPath) in
  relPath ≠ "." →
  tree (fsys w) !! targetPath = None → targetPath ≠ [] →
  generate_entry g pick path (Some info) None w = (w', None) →
  tree (fsys w') !! targetPath = Some (Dir (created_mode (fsys w) (Mode info))).
Proof.
  intros Hdry Hdir relPath targetPath Hrel Hnone Hne.
  unfold generate_entry. fold relPath.
  apply String.eqb_neq in Hrel. rewrite Hrel. cbn zeta. fold targetPath.
  rewrite Hdir, Hdry. cbn [fsys next_call].
  destruct (MkdirAll (fsys w) targetPath (Mode info)) as [e|fs1] eqn:Em; [done|].
  intros [= <-]. cbn [fsys set_fsys].
  destruct (exists_last Hne) as (rest&n&Heq). rewrite Heq in *.
  by apply (mkdir_from_made _ rest [] n) in Em.
Qed.

Lemma generate_entry_makes_directory_witness :
  ∃ w', tree (fsys w') !! ["output"; "sub"]
        = Some (Dir (created_mode (fsys sample_world) 448)).
Proof.
  eexists.
  eapply (generate_entry_makes_directory
            (NewGenerator (sample_config all_formats false)) sample_orders
            ["template"; "sub"] {| IsDir := true; Mode := 448 |} sample_world);
    try (vm_compute; reflexivity); vm_compute; discriminate.
Defined.

(** * Binary files *)

Lemma lookup_from_node (t : gmap (list string) entry) (rest cur : fpath)
    (e : entry) :
  lookup_from t cur rest = inr e → node_at t (cur ++ rest) = Some e.
Proof.
  revert cur. induction rest as [|n rest IH]; intros cur; cbn [lookup_from].
  - rewrite app_nil_r. destruct (node_at t cur); [|done]. by intros [= <-].
  - destruct (node_at t cur) as [[m d|m]|]; [done| |done].
    intros H. apply IH in H. by rewrite <- app_assoc in H.
Qed.

Lemma lookup_from_preserved (t t' : gmap (list string) entry)
    (rest cur : fpath) (e : entry) :
  (∀ p m, t !! p = Some (Dir m) → t' !! p = Some (Dir m)) →
  node_at t' (cur ++ rest) = Some e →
  lookup_from t cur rest = inr e → lookup_from t' cur rest = inr e.
Proof.
  intros Hdirs. revert cur. induction rest as [|n rest IH]; intros cur;
    cbn [lookup_from].
  - rewrite app_nil_r. by intros ->.
  - intros Hn H. destruct (node_at t cur) as [[m d|m]|] eqn:E; [done| |done].
    assert (E' : node_at t' cur = Some (Dir m)).
    { destruct cur; [done|]. cbn [node_at] in *. by apply Hdirs. }
    rewrite E'. apply IH; [|done]. by rewrite <- app_assoc.
Qed.

Lemma mkdir_from_same (perm : N) (rest cur : fpath) (fs fs' : filesystem)
    (p : fpath) (e : entry) :
  mkdir_from fs perm cur rest = inr fs' →
  tree fs !! p = Some e → tree fs' !! p = Some e.
Proof.
  revert cur fs. induction rest as [|n rest IH]; intros cur fs; cbn [mkdir_from].
  - by intros [= <-].
  - destruct (tree fs !! (cur ++ [n])) as [[m d|m]|] eqn:E; [done|apply IH|].
    intros H Hp. apply (IH _ _ H). cbn [tree with_tree].
    rewrite lookup_insert_ne; [done|]. intros <-. congruence.
Qed.

Lemma OpenFile_trunc_result (fs fs' : filesystem) (path : fpath) (perm : N) :
  OpenFile_trunc fs path perm = inr fs' →
  (∃ m, tree fs' !! path = Some (File m [])) ∧
  (∀ q, q ≠ path → tree fs' !! q = tree fs !! q).
Proof.
  unfold OpenFile_trunc. destruct path as [|n path]; [done|].
  destruct (Lstat fs _) as [e|[m d|m]]; [done..|].
  destruct (tree fs !! (n :: path)) as [[m' d|m']|] eqn:E; [|done|].
  - destruct (owner_write m'); [|done]. intros [= <-]. cbn [tree with_tree].
    split; [exists m'; apply lookup_insert_eq|].
    intros q Hq. by apply lookup_insert_ne.
  - intros [= <-]. cbn [tree with_tree].
    split; [eexists; apply lookup_insert_eq|].
    intros q Hq. by apply lookup_insert_ne.
Qed.

Lemma Open_file (fs : filesystem) (path : fpath) (m : N) (d : bytes) :
  Open fs path = inr (File m d) →
  Lstat fs path = inr (File m d) ∧ tree fs !! path = Some (File m d).
Proof.
  unfold Open. destruct (Lstat fs path) as [e|[m' d'|m']] eqn:E; [done| |];
    destruct (owner_read m'); intros [= -> ->] || done.
  split; [done|]. apply lookup_from_node in E. cbn [app] in E.
  by destruct path.
Qed.

Lemma Lstat_node (fs : filesystem) (path : fpath) (e : entry) :
  Lstat fs path = inr e → node_at (tree fs) path = Some e.
Proof. intros H. by apply lookup_from_node in H. Qed.

(** X20.  In a run that is not a dry run, a binary file that is written
    to another path than its own arrives byte for byte: no placeholder in
    it is substituted. *)
Theorem processFile_copies_binary
    (g : Generator) (pick : orders) (sourcePath targetPath : fpath)
    (info : FileInfo) (w w' : world) (m : N) (content : bytes) :
  DryRun (cfg g) = false →
  Open (fsys w) sourcePath = inr (File m content) →
  IsBinaryFile (fsys w) sourcePath = true →
  sourcePath ≠ targetPath →
  processFile g pick sourcePath targetPath info w = (w', None) →
  ∃ m', tree (fsys w') !! targetPath = Some (File m' content).
Proof.
  intros Hdry Ho Hb Hne. unfold processFile. rewrite Ho, Hb, Hdry.
  destruct (Open_file _ _ _ _ Ho) as [Hl Ht].
  destruct (MkdirAll (fsys w) (Dir_of targetPath) perm_0755) as [e|fs1] eqn:Em;
    [done|].
  unfold copyFile. cbn [fsys set_fsys].
  destruct (Open fs1 sourcePath) as [e|src]; [done|].
  destruct (OpenFile_trunc fs1 targetPath perm_0644) as [e|fs2] eqn:Eo; [done|].
  destruct (OpenFile_trunc_result _ _ _ _ Eo) as [[m' Hm'] Hother].
  assert (Hl2 : Lstat fs2 sourcePath = inr (File m content)).
  { unfold Lstat. apply (lookup_from_preserved (tree (fsys w))); [| |done].
    - intros p mp Hp. apply (mkdir_from_same _ _ _ _ _ _ _ Em) in Hp.
      destruct (decide (p = targetPath)) as [->|Hq]; [|by rewrite Hother].
      pose proof (OpenFile_trunc_keeps _ _ _ _ Eo targetPath) as Hk.
      by rewrite Hp in Hk.
    - cbn [app]. destruct sourcePath as [|n sp]; [done|]. cbn [node_at].
      rewrite Hother by done. by apply (mkdir_from_same _ _ _ _ _ _ _ Em). }
  rewrite Hl2. cbn [ReadAll]. intros [= <-]. cbn [fsys set_fsys].
  exists m'. unfold Write. rewrite Hm'. cbn [tree with_tree].
  apply lookup_insert_eq.
Qed.

Lemma processFile_copies_binary_witness :
  ∃ w' m', tree (fsys w') !! ["output"; "tool"]
           = Some (File m' (to_bytes "ELF" ++ [Byte.x00] ++ to_bytes "{{name}}")).
Proof.
  eexists.
  eapply (processFile_copies_binary
            (NewGenerator (sample_config all_formats false)) sample_orders
            ["template"; "sub"; "tool"] ["output"; "tool"]
            {| IsDir := false; Mode := 493 |} sample_world _ 493);
    try (vm_compute; reflexivity); vm_compute; discriminate.
Defined.

(** X21.  [copyFile] from a path to the same path leaves the file empty:
    the destination is truncated before the source is read. *)
Theorem copyFile_onto_itself (path : fpath) (w w' : world) :
  copyFile path path w = (w', None) →
  ∃ m, tree (fsys w') !! path = Some (File m []).
Proof.
  unfold copyFile. destruct (Open (fsys w) path) as [e|src]; [done|].
  destruct (OpenFile_trunc (fsys w) path perm_0644) as [e|fs'] eqn:Eo; [done|].
  destruct (OpenFile_trunc_result _ _ _ _ Eo) as [[m Hm] _].
  destruct (Lstat fs' path) as [e|now] eqn:El; [done|].
  apply Lstat_node in El.
  assert (now = File m []) as ->.
  { destruct path as [|n p]; [done|]. cbn [node_at] in El. congruence. }
  cbn [ReadAll]. intros [= <-]. cbn [fsys set_fsys].
  exists m. unfold Write. rewrite Hm. cbn [tree with_tree].
  apply lookup_insert_eq.
Qed.

Lemma copyFile_onto_itself_witness :
  ∃ w' m, tree (fsys w') !! ["template"; "sub"; "tool"] = Some (File m []).
Proof.
  eexists.
  eapply (copyFile_onto_itself ["template"; "sub"; "tool"] sample_world).
  vm_compute. reflexivity.
Defined.
